(** * 7TV paints: descriptor parser and paint registry

    A shallow embedding of [src/providers/seventv/SeventvPaints.cpp]:
    the colour decoder, the gradient-stop and drop-shadow parsers, the
    variant dispatch of [parsePaint], and the registry operations of
    [SeventvPaints] (two maps from strings to shared paint instances).

    Modelling choices:
    - [uint32_t] and [int] are [Z] with the wrap-around written out;
    - [double] is IEEE-754 binary64, as [spec_float] with [prec = 53] and
      [emax = 1024]; [float] is binary32;
    - a [QJsonValue] is an inductive type, read through Qt's defaulting
      accessors ([toInt], [toDouble], [toString], ...);
    - [std::shared_ptr<Paint>] is an address into a store of allocated
      paints; [std::make_shared] allocates a fresh address, so that two
      pointers are the same instance exactly when the addresses are equal;
    - [std::unordered_map<QString, ...>] is a [gmap string _]. *)

From Stdlib Require Import ZArith Lia Bool List.
From Stdlib Require Import Floats.SpecFloat.
From stdpp Require Import base option list gmap strings fin_maps.

Set Warnings "-register-all".
Local Open Scope Z_scope.

(** ** Machine numbers *)

Module Double.

Definition prec : Z := 53.
Definition emax : Z := 1024.

Definition add : spec_float -> spec_float -> spec_float := SFadd prec emax.
Definition div : spec_float -> spec_float -> spec_float := SFdiv prec emax.
Definition eqb : spec_float -> spec_float -> bool := SFeqb.
Definition ltb : spec_float -> spec_float -> bool := SFltb.
Definition leb : spec_float -> spec_float -> bool := SFleb.
Definition valid : spec_float -> bool := valid_binary prec emax.

(** The binary64 value of an integer (exact below 2^53). *)
Definition of_Z (n : Z) : spec_float := binary_normalize prec emax n 0 false.

Definition zero : spec_float := S754_zero false.
Definition one : spec_float := Eval vm_compute in of_Z 1.
Definition minus_one : spec_float := Eval vm_compute in of_Z (-1).
(** 0.5 = 2^52 * 2^-53 *)
Definition half : spec_float := S754_finite false 4503599627370496 (-53).

(** The literal [0.0000001]: the binary64 number nearest to 10^-7. *)
Definition lit_1e_7 : spec_float :=
  S754_finite false 7555786372591432 (-76).

(** The value of a finite number as an integer, when it is one. *)
Definition to_Z_exact (d : spec_float) : option Z :=
  match d with
  | S754_zero _ => Some 0
  | S754_finite s m e =>
      if 0 <=? e then Some (cond_Zopp s (Zpos m * 2 ^ e))
      else if Zpos m mod 2 ^ (- e) =? 0
           then Some (cond_Zopp s (Zpos m / 2 ^ (- e)))
           else None
  | _ => None
  end.

(** The cast [(float)d]: rounding to binary32. *)
Definition to_float (d : spec_float) : spec_float :=
  match d with
  | S754_finite s m e => binary_normalize 24 128 (cond_Zopp s (Zpos m)) e s
  | _ => d
  end.

End Double.

Definition INT_MIN : Z := - 2 ^ 31.
Definition INT_MAX : Z := 2 ^ 31 - 1.

(** The implicit conversion of an [int] argument to [uint32_t]. *)
Definition to_uint32 (n : Z) : Z := n mod 2 ^ 32.

(** ** JSON values and Qt's accessors *)

Abbreviation QString := string.

Inductive QJsonValue :=
| Null
| Bool (b : bool)
| Number (d : spec_float)
| String (s : QString)
| Array (a : list QJsonValue)
| Object (o : list (QString * QJsonValue))
| Undefined.

Definition QJsonArray := list QJsonValue.
Definition QJsonObject := list (QString * QJsonValue).

(** [QJsonObject::operator[]]: the value under the key, [Undefined]
    when the key is absent. *)
Fixpoint value (o : QJsonObject) (key : QString) : QJsonValue :=
  match o with
  | [] => Undefined
  | (k, v) :: o' => if String.eqb k key then v else value o' key
  end.

Definition isNull (v : QJsonValue) : bool :=
  match v with Null => true | _ => false end.

Definition toString (v : QJsonValue) : QString :=
  match v with String s => s | _ => EmptyString end.

Definition toBool (v : QJsonValue) : bool :=
  match v with Bool b => b | _ => false end.

Definition toDouble (v : QJsonValue) : spec_float :=
  match v with Number d => d | _ => Double.zero end.

(** [QJsonValue::toInt]: the number when it is whole and fits an [int],
    the default 0 otherwise. *)
Definition toInt (v : QJsonValue) : Z :=
  match v with
  | Number d =>
      match Double.to_Z_exact d with
      | Some n => if (INT_MIN <=? n) && (n <=? INT_MAX) then n else 0
      | None => 0
      end
  | _ => 0
  end.

Definition toArray (v : QJsonValue) : QJsonArray :=
  match v with Array a => a | _ => [] end.

Definition toObject (v : QJsonValue) : QJsonObject :=
  match v with Object o => o | _ => [] end.

(** ** Paint model *)

Record QColor := mkQColor { red : Z; green : Z; blue : Z; alpha : Z }.

Definition QGradientStop : Type := spec_float * QColor.
Definition QGradientStops := list QGradientStop.

(** Modelled from the spec: the class [PaintDropShadow]
    (providers/seventv/paints/PaintDropShadow.hpp) is not among the
    sources; it holds the four constructor arguments. *)
Record PaintDropShadow := mkPaintDropShadow {
  offsetX : spec_float;
  offsetY : spec_float;
  blurRadius : spec_float;
  shadowColor : QColor
}.

(** Modelled from the spec: [Image] and [ImagePtr] (messages/Image.hpp)
    are not among the sources; an image handle is identified by the URL
    and scale it was requested with, and [nullptr] is [None]. *)
Record Image := mkImage { imageUrl : QString; imageScale : Z }.
Definition ImagePtr := option Image.

(** Modelled from the spec: the classes [Paint], [LinearGradientPaint],
    [RadialGradientPaint] and [UrlPaint] (providers/seventv/paints/) are
    not among the sources; each variant holds its constructor's
    arguments, and [name] and [id] are common to all. *)
Inductive Paint :=
| LinearGradientPaint (name id : QString) (color : option QColor)
    (stops : QGradientStops) (repeat : bool) (angle : spec_float)
    (shadows : list PaintDropShadow)
| RadialGradientPaint (name id : QString) (stops : QGradientStops)
    (repeat : bool) (shadows : list PaintDropShadow)
| UrlPaint (name id : QString) (image : Image)
    (shadows : list PaintDropShadow).

Definition paint_name (p : Paint) : QString :=
  match p with
  | LinearGradientPaint n _ _ _ _ _ _ => n
  | RadialGradientPaint n _ _ _ _ => n
  | UrlPaint n _ _ _ => n
  end.

Definition paint_id (p : Paint) : QString :=
  match p with
  | LinearGradientPaint _ i _ _ _ _ _ => i
  | RadialGradientPaint _ i _ _ _ => i
  | UrlPaint _ i _ _ => i
  end.

(** ** The free store of shared paints *)

(** A [std::shared_ptr<Paint>] is the address of an allocated paint.
    The store records every allocation and never reuses an address; it
    does not record releases.  A paint is alive in the program as long
    as some map holds its pointer (see [held]), so the store's entry at
    an address says what a paint is only for an address that is held. *)
Definition PaintPtr := nat.
Definition Store := list Paint.

(** [std::make_shared]: allocation at the next free address. *)
Definition make_shared (p : Paint) (st : Store) : PaintPtr * Store :=
  (length st, st ++ [p]).

(** ** Descriptor parser *)

Definition rgbaToQColor (color : Z) : QColor :=
  let red := Z.land (Z.shiftr color 24) 255 in
  let green := Z.land (Z.shiftr color 16) 255 in
  let blue := Z.land (Z.shiftr color 8) 255 in
  let alpha := Z.land color 255 in
  mkQColor red green blue alpha.

Definition parsePaintColor (color : QJsonValue) : option QColor :=
  if isNull color then None
  else Some (rgbaToQColor (to_uint32 (toInt color))).

(** The loop of [parsePaintStops], with [lastStop] and the stops
    appended so far as loop state. *)
Fixpoint parsePaintStops_loop (stops : QJsonArray) (lastStop : spec_float)
    (parsedStops : QGradientStops) : QGradientStops :=
  match stops with
  | [] => parsedStops
  | stop :: rest =>
      let stopObject := toObject stop in
      let rgbaColor := toInt (value stopObject "color") in
      let position := toDouble (value stopObject "at") in
      let position :=
        if Double.eqb position lastStop
        then Double.add position Double.lit_1e_7
        else position in
      parsePaintStops_loop rest position
        (parsedStops ++ [(position, rgbaToQColor (to_uint32 rgbaColor))])
  end.

Definition parsePaintStops (stops : QJsonArray) : QGradientStops :=
  parsePaintStops_loop stops Double.minus_one [].

Definition parseDropShadows (dropShadows : QJsonArray)
    : list PaintDropShadow :=
  map (fun shadow =>
         let shadowObject := toObject shadow in
         let xOffset := toDouble (value shadowObject "x_offset") in
         let yOffset := toDouble (value shadowObject "y_offset") in
         let radius := toDouble (value shadowObject "radius") in
         let rgbaColor := toInt (value shadowObject "color") in
         mkPaintDropShadow xOffset yOffset radius
           (rgbaToQColor (to_uint32 rgbaColor)))
      dropShadows.

(** ** Properties the specification states over the parser *)

(** The packed layout named by the specification: R in bits 31-24, G in
    bits 23-16, B in bits 15-8, A in bits 7-0. *)
Definition packed_rgba (r g b a : Z) : Z :=
  Z.lor (Z.lor (Z.lor (Z.shiftl r 24) (Z.shiftl g 16)) (Z.shiftl b 8)) a.

(** Each position is strictly below the next one. *)
Fixpoint strictly_increasing (positions : list spec_float) : bool :=
  match positions with
  | p :: (q :: _) as rest => Double.ltb p q && strictly_increasing rest
  | _ => true
  end.

(** A stop record with the given position and packed colour. *)
Definition stopRecord (at_ : spec_float) (color : Z) : QJsonValue :=
  Object [("at", Number at_); ("color", Number (Double.of_Z color))]%string.

(** ** Concrete registries *)

(** A resolver that knows no image, and one that resolves every URL. *)
Definition noImage : QString -> Z -> ImagePtr := fun _ _ => None.
Definition anyImage : QString -> Z -> ImagePtr :=
  fun url scale => Some (mkImage url scale).

(** A catalog record with the given id, name, variant tag and users. *)
Definition paintRecord (id name function : QString) (users : list QString)
    : QJsonValue :=
  Object [("id", String id); ("name", String name);
          ("function", String function);
          ("users", Array (map String users))]%string.

(** The [int] a 32-bit colour travels as: its two's-complement reading. *)
Definition as_int32 (c : Z) : Z := if c <? 2 ^ 31 then c else c - 2 ^ 32.

(** The position a stop record carries. *)
Definition stop_position (stop : QJsonValue) : spec_float :=
  toDouble (value (toObject stop) "at").

(** The colour a stop record carries. *)
Definition stop_color (stop : QJsonValue) : QColor :=
  rgbaToQColor (to_uint32 (toInt (value (toObject stop) "color"))).

(** A binary64 number of the normalized range [0, 1]. *)
Definition in_unit_range (p : spec_float) : bool :=
  Double.valid p && Double.leb Double.zero p && Double.leb p Double.one.

(** No position equals the next one. *)
Fixpoint adjacent_distinct (positions : list spec_float) : bool :=
  match positions with
  | p :: (q :: _) as rest => negb (Double.eqb p q) && adjacent_distinct rest
  | _ => true
  end.




(** ** The catalog request *)

Record QUrl := mkQUrl {
  urlBase : QString;
  urlQueryItems : list (QString * QString)
}.

(** The function-local statics [url] and [urlQuery] of
    [loadSeventvPaints]; they live from one call to the next. *)
Record LoadStatics := mkLoadStatics {
  static_url : QUrl;
  static_urlQuery : list (QString * QString)
}.

Definition initialStatics : LoadStatics :=
  mkLoadStatics (mkQUrl "https://7tv.io/v2/cosmetics" []) [].

(** The request one call of [loadSeventvPaints] issues, and the statics
    it leaves: [addQueryItem] appends the pair to the static query and
    [setQuery] installs that query in the static URL. *)
Definition loadSeventvPaints_request (st : LoadStatics)
    : QUrl * LoadStatics :=
  let urlQuery :=
    static_urlQuery st ++ [("user_identifier", "login")]%string in
  let url := mkQUrl (urlBase (static_url st)) urlQuery in
  (url, mkLoadStatics url urlQuery).

(** The request of the call that follows [n] earlier calls. *)
Fixpoint request_after (n : nat) (st : LoadStatics) : QUrl :=
  match n with
  | O => fst (loadSeventvPaints_request st)
  | S n' => request_after n' (snd (loadSeventvPaints_request st))
  end.

Section Registry.

(** Modelled from the spec: [Image::fromUrl] (messages/Image.hpp) is
    not among the sources; it is the external image-by-URL resolver,
    which returns a shared handle or no handle ([nullptr]). *)
Variable fromUrl : QString -> Z -> ImagePtr.

Definition parsePaint (paintJson : QJsonObject) (st : Store)
    : option PaintPtr * Store :=
  let name := toString (value paintJson "name") in
  let id := toString (value paintJson "id") in
  let color := parsePaintColor (value paintJson "color") in
  let repeat := toBool (value paintJson "repeat") in
  let angle := Double.to_float (toDouble (value paintJson "angle")) in
  let stops := parsePaintStops (toArray (value paintJson "stops")) in
  let shadows :=
    parseDropShadows (toArray (value paintJson "drop_shadows")) in
  let function := toString (value paintJson "function") in
  if String.eqb function "LINEAR_GRADIENT"
     || String.eqb function "linear-gradient"
  then
    let '(paint, st') :=
      make_shared
        (LinearGradientPaint name id color stops repeat angle shadows) st in
    (Some paint, st')
  else if String.eqb function "RADIAL_GRADIENT"
          || String.eqb function "radial-gradient"
  then
    let '(paint, st') :=
      make_shared (RadialGradientPaint name id stops repeat shadows) st in
    (Some paint, st')
  else if String.eqb function "URL" || String.eqb function "url"
  then
    let url := toString (value paintJson "image_url") in
    match fromUrl url 1 with
    | None => (None, st)
    | Some image =>
        let '(paint, st') :=
          make_shared (UrlPaint name id image shadows) st in
        (Some paint, st')
    end
  else (None, st).

(** ** Paint registry *)

(** The members [knownPaints_] and [paintMap_] of [SeventvPaints],
    together with the store their shared pointers point into. Every
    operation runs under the registry's mutex, so each is one atomic
    state transition. *)
Record SeventvPaints := mkSeventvPaints {
  store : Store;
  knownPaints_ : gmap string PaintPtr;
  paintMap_ : gmap string PaintPtr
}.

Definition emptyRegistry : SeventvPaints := mkSeventvPaints [] ∅ ∅.

Definition set_store (st : Store) (s : SeventvPaints) : SeventvPaints :=
  mkSeventvPaints st (knownPaints_ s) (paintMap_ s).

Definition set_knownPaints (k : gmap string PaintPtr) (s : SeventvPaints)
    : SeventvPaints :=
  mkSeventvPaints (store s) k (paintMap_ s).

Definition set_paintMap (m : gmap string PaintPtr) (s : SeventvPaints)
    : SeventvPaints :=
  mkSeventvPaints (store s) (knownPaints_ s) m.

Definition getPaint (userName : QString) (s : SeventvPaints)
    : option PaintPtr :=
  paintMap_ s !! userName.

Definition addPaint (paintJson : QJsonObject) (s : SeventvPaints)
    : SeventvPaints :=
  let paintID := toString (value paintJson "id") in
  match knownPaints_ s !! paintID with
  | Some _ => s
  | None =>
      let '(paint, st') := parsePaint paintJson (store s) in
      let s := set_store st' s in
      match paint with
      | None => s
      | Some paint =>
          set_knownPaints (<[paintID := paint]> (knownPaints_ s)) s
      end
  end.

Definition assignPaintToUser (paintID userName : QString)
    (s : SeventvPaints) : SeventvPaints :=
  match knownPaints_ s !! paintID with
  | Some paint => set_paintMap (<[userName := paint]> (paintMap_ s)) s
  | None => s
  end.

(** [it->second->id] reads the paint behind the pointer; a shared
    pointer held by the map always points to an allocated paint, and
    for an address outside the store nothing is erased. *)
Definition clearPaintFromUser (paintID userName : QString)
    (s : SeventvPaints) : SeventvPaints :=
  match paintMap_ s !! userName with
  | Some it =>
      match store s !! it with
      | Some paint =>
          if String.eqb (paint_id paint) paintID
          then set_paintMap (delete userName (paintMap_ s)) s
          else s
      | None => s
      end
  | None => s
  end.

(** The inner loop of the success handler: every listed user gets the
    same shared pointer. *)
Definition assignUsers (users : QJsonArray) (paint : PaintPtr)
    (m : gmap string PaintPtr) : gmap string PaintPtr :=
  fold_left (fun m userJson => <[toString userJson := paint]> m) users m.

(** The body of the outer loop of the success handler. *)
Definition mergePaint (s : SeventvPaints) (paintValueRef : QJsonValue)
    : SeventvPaints :=
  let paintJson := toObject paintValueRef in
  let '(paint, st') := parsePaint paintJson (store s) in
  let s := set_store st' s in
  match paint with
  | None => s
  | Some paint =>
      let s :=
        set_knownPaints
          (<[toString (value paintJson "id") := paint]> (knownPaints_ s))
          s in
      set_paintMap
        (assignUsers (toArray (value paintJson "users")) paint
           (paintMap_ s)) s
  end.

Definition bulkMerge (paints : QJsonArray) (s : SeventvPaints)
    : SeventvPaints :=
  fold_left mergePaint paints s.

(** The success handler of [loadSeventvPaints], applied to the parsed
    response body. *)
Definition loadSeventvPaints_onSuccess (root : QJsonObject)
    (s : SeventvPaints) : SeventvPaints :=
  bulkMerge (toArray (value root "paints")) s.

(** ** Histories of registry operations *)

Inductive Op :=
| AddKnownPaint (paintJson : QJsonObject)
| Assign (paintID userName : QString)
| Clear (paintID userName : QString)
| BulkMerge (paints : QJsonArray).

Definition step (s : SeventvPaints) (op : Op) : SeventvPaints :=
  match op with
  | AddKnownPaint paintJson => addPaint paintJson s
  | Assign paintID userName => assignPaintToUser paintID userName s
  | Clear paintID userName => clearPaintFromUser paintID userName s
  | BulkMerge paints => bulkMerge paints s
  end.

Definition run (ops : list Op) (s : SeventvPaints) : SeventvPaints :=
  fold_left step ops s.


(** ** Registry invariants *)

(** Every known paint lives in the store under the id it is filed under. *)
Definition known_ok (s : SeventvPaints) : Prop :=
  forall k l, knownPaints_ s !! k = Some l ->
    exists p, store s !! l = Some p /\ paint_id p = k.

(** Every assigned pointer is a live paint whose id is a known id. *)
Definition assigned_known_id (s : SeventvPaints) : Prop :=
  forall u l, paintMap_ s !! u = Some l ->
    exists p, store s !! l = Some p
              /\ is_Some (knownPaints_ s !! paint_id p).


(** A pointer some map of the registry holds: a shared pointer that
    keeps its paint alive. *)
Definition held (s : SeventvPaints) (l : PaintPtr) : Prop :=
  (exists k, knownPaints_ s !! k = Some l)
  \/ (exists u, paintMap_ s !! u = Some l).

(** ** Batches *)

(** Whether a record parses; the store plays no part in it. *)
Definition parses (paintValueRef : QJsonValue) : bool :=
  bool_decide (is_Some (fst (parsePaint (toObject paintValueRef) []))).

(** The user names a catalog record lists. *)
Definition record_users (paintValueRef : QJsonValue) : list QString :=
  map toString (toArray (value (toObject paintValueRef) "users")).




(** ** Concrete histories *)

(** A catalog that lists the id [p1] twice: first for alice, then anew
    for nobody. *)
Definition refreshingOps : list Op :=
  [BulkMerge [paintRecord "p1" "first" "linear-gradient" ["alice"];
              paintRecord "p1" "second" "linear-gradient" []]]%string.


(** A history without a refresh. *)
Definition plainOps : list Op :=
  [AddKnownPaint (toObject (paintRecord "p1" "first" "url" []));
   Assign "p1" "alice";
   BulkMerge [paintRecord "p2" "second" "radial-gradient" ["bob"; "alice"]];
   Clear "p1" "alice"]%string.

(** ** Facts about the parser *)

Lemma make_shared_lookup (p : Paint) (st : Store) :
  (st ++ [p]) !! length st = Some p.
Proof. by rewrite lookup_app_r, Nat.sub_diag. Qed.

Lemma store_lookup_grow (p q : Paint) (st : Store) (l : PaintPtr) :
  st !! l = Some q -> (st ++ [p]) !! l = Some q.
Proof. intros H. by apply lookup_app_l_Some. Qed.

(** A successful parse allocates exactly one paint, at the next free
    address, carrying the record's [id] and [name]. *)
Lemma parsePaint_Some paintJson st l st' :
  parsePaint paintJson st = (Some l, st') ->
  exists p, l = length st /\ st' = st ++ [p]
            /\ paint_id p = toString (value paintJson "id")
            /\ paint_name p = toString (value paintJson "name").
Proof.
  unfold parsePaint, make_shared.
  repeat case_match; intros [= <- <-]; eauto 10.
Qed.

(** A failed parse allocates nothing. *)
Lemma parsePaint_None paintJson st st' :
  parsePaint paintJson st = (None, st') -> st' = st.
Proof.
  unfold parsePaint, make_shared.
  repeat case_match; by intros [= <-].
Qed.

Lemma set_store_id s : set_store (store s) s = s.
Proof. by destruct s. Qed.

(** *** The inner loop *)

Lemma assignUsers_lookup users paint (m : gmap string PaintPtr) u l :
  assignUsers users paint m !! u = Some l ->
  l = paint \/ m !! u = Some l.
Proof.
  unfold assignUsers. revert m.
  induction users as [|v users IH]; cbn [fold_left map]; intros m H; [by right|].
  apply IH in H as [->|H]; [by left|].
  destruct (decide (toString v = u)) as [E|Hne].
  - rewrite E, lookup_insert_eq in H. left. congruence.
  - rewrite lookup_insert_ne in H by done. by right.
Qed.

Lemma assignUsers_listed users paint (m : gmap string PaintPtr) u :
  u ∈ map toString users ->
  assignUsers users paint m !! u = Some paint.
Proof.
  unfold assignUsers. revert m.
  induction users as [|v users IH]; cbn [fold_left map]; intros m H.
  - by apply elem_of_nil in H.
  - destruct (decide (u ∈ map toString users)) as [Hin|Hnin].
    + by apply IH.
    + apply elem_of_cons in H as [->|H]; [|done].
      clear IH. revert m. induction users as [|w users IH]; cbn [fold_left map]; intros m.
      * apply lookup_insert_eq.
      * apply not_elem_of_cons in Hnin as [Hne Hnin].
        destruct (decide (toString w = toString v)) as [E|E]; [congruence|].
        rewrite insert_insert_ne by done. by apply IH.
Qed.

Lemma assignUsers_unlisted users paint (m : gmap string PaintPtr) u :
  u ∉ map toString users -> assignUsers users paint m !! u = m !! u.
Proof.
  unfold assignUsers. revert m.
  induction users as [|v users IH]; cbn [fold_left map]; intros m H; [done|].
  apply not_elem_of_cons in H as [Hne H].
  rewrite IH by done. by rewrite lookup_insert_ne.
Qed.

Lemma assignUsers_lookup_cases users paint (m : gmap string PaintPtr) u l :
  assignUsers users paint m !! u = Some l ->
  ((u ∈ map toString users) /\ l = paint)
  \/ ((u ∉ map toString users) /\ m !! u = Some l).
Proof.
  destruct (decide (u ∈ map toString users)) as [Hin|Hnin].
  - rewrite assignUsers_listed by done. intros [= <-]. by left.
  - rewrite assignUsers_unlisted by done. by right.
Qed.

(** *** One record of a bulk merge *)

Lemma mergePaint_None s v st' :
  parsePaint (toObject v) (store s) = (None, st') -> mergePaint s v = s.
Proof.
  intros H. unfold mergePaint. rewrite H.
  apply parsePaint_None in H as ->. apply set_store_id.
Qed.

Lemma mergePaint_Some s v l st' :
  parsePaint (toObject v) (store s) = (Some l, st') ->
  mergePaint s v =
    mkSeventvPaints st'
      (<[toString (value (toObject v) "id") := l]> (knownPaints_ s))
      (assignUsers (toArray (value (toObject v) "users")) l (paintMap_ s)).
Proof. intros H. unfold mergePaint. by rewrite H. Qed.

Lemma addPaint_known paintJson s :
  is_Some (knownPaints_ s !! toString (value paintJson "id")) ->
  addPaint paintJson s = s.
Proof. intros [l H]. unfold addPaint. by rewrite H. Qed.

Lemma addPaint_None paintJson s st' :
  parsePaint paintJson (store s) = (None, st') -> addPaint paintJson s = s.
Proof.
  intros H. unfold addPaint. case_match; [done|]. rewrite H.
  apply parsePaint_None in H as ->. apply set_store_id.
Qed.

Lemma addPaint_Some paintJson s l st' :
  knownPaints_ s !! toString (value paintJson "id") = None ->
  parsePaint paintJson (store s) = (Some l, st') ->
  addPaint paintJson s =
    mkSeventvPaints st'
      (<[toString (value paintJson "id") := l]> (knownPaints_ s))
      (paintMap_ s).
Proof. intros Hk H. unfold addPaint. by rewrite Hk, H. Qed.

(** *** Preservation of the invariants *)

Lemma mergePaint_inv s v :
  known_ok s -> assigned_known_id s ->
  known_ok (mergePaint s v) /\ assigned_known_id (mergePaint s v).
Proof.
  intros Hk Ha.
  destruct (parsePaint (toObject v) (store s)) as [[l|] st'] eqn:E.
  2:{ by rewrite (mergePaint_None _ _ _ E). }
  rewrite (mergePaint_Some _ _ _ _ E).
  apply parsePaint_Some in E as (p & -> & -> & Hid & _).
  split.
  - intros k l Hl; cbn in *.
    destruct (decide (toString (value (toObject v) "id") = k)) as [<-|Hne].
    + rewrite lookup_insert_eq in Hl. injection Hl as <-.
      exists p. split; [apply make_shared_lookup|done].
    + rewrite lookup_insert_ne in Hl by done.
      destruct (Hk _ _ Hl) as (q & Hq & Hqid).
      exists q. split; [by apply store_lookup_grow|done].
  - intros u l Hl; cbn in *.
    apply assignUsers_lookup in Hl as [->|Hl].
    + exists p. split; [apply make_shared_lookup|].
      rewrite Hid, lookup_insert_eq. by eexists.
    + destruct (Ha _ _ Hl) as (q & Hq & l' & Hl').
      exists q. split; [by apply store_lookup_grow|].
      destruct (decide (toString (value (toObject v) "id") = paint_id q))
        as [<-|Hne].
      * rewrite lookup_insert_eq. by eexists.
      * rewrite lookup_insert_ne by done. by eexists.
Qed.

Lemma bulkMerge_inv paints s :
  known_ok s -> assigned_known_id s ->
  known_ok (bulkMerge paints s) /\ assigned_known_id (bulkMerge paints s).
Proof.
  unfold bulkMerge. revert s.
  induction paints as [|v paints IH]; cbn [fold_left]; intros s Hk Ha.
  - done.
  - destruct (mergePaint_inv s v Hk Ha). by apply IH.
Qed.

Lemma addPaint_inv paintJson s :
  known_ok s -> assigned_known_id s ->
  known_ok (addPaint paintJson s) /\ assigned_known_id (addPaint paintJson s).
Proof.
  intros Hk Ha.
  destruct (knownPaints_ s !! toString (value paintJson "id")) as [l0|] eqn:K.
  { rewrite addPaint_known by (by eexists). done. }
  destruct (parsePaint paintJson (store s)) as [[l|] st'] eqn:E.
  2:{ by rewrite (addPaint_None _ _ _ E). }
  rewrite (addPaint_Some _ _ _ _ K E).
  apply parsePaint_Some in E as (p & -> & -> & Hid & _).
  split.
  - intros k l Hl; cbn in *.
    destruct (decide (toString (value paintJson "id") = k)) as [<-|Hne].
    + rewrite lookup_insert_eq in Hl. injection Hl as <-.
      exists p. split; [apply make_shared_lookup|done].
    + rewrite lookup_insert_ne in Hl by done.
      destruct (Hk _ _ Hl) as (q & Hq & Hqid).
      exists q. split; [by apply store_lookup_grow|done].
  - intros u l Hl; cbn in *.
    destruct (Ha _ _ Hl) as (q & Hq & l' & Hl').
    exists q. split; [by apply store_lookup_grow|].
    destruct (decide (toString (value paintJson "id") = paint_id q))
      as [<-|Hne].
    * rewrite lookup_insert_eq. by eexists.
    * rewrite lookup_insert_ne by done. by eexists.
Qed.

Lemma assignPaintToUser_inv paintID userName s :
  known_ok s -> assigned_known_id s ->
  known_ok (assignPaintToUser paintID userName s)
  /\ assigned_known_id (assignPaintToUser paintID userName s).
Proof.
  intros Hk Ha. unfold assignPaintToUser.
  destruct (knownPaints_ s !! paintID) as [l0|] eqn:K; [|done].
  split; [done|].
  intros u l Hl; cbn in *.
  destruct (decide (userName = u)) as [->|Hne].
  - rewrite lookup_insert_eq in Hl. injection Hl as <-.
    destruct (Hk _ _ K) as (q & Hq & <-).
    exists q. split; [done|]. by eexists.
  - rewrite lookup_insert_ne in Hl by done. by apply Ha in Hl.
Qed.

Lemma clearPaintFromUser_inv paintID userName s :
  known_ok s -> assigned_known_id s ->
  known_ok (clearPaintFromUser paintID userName s)
  /\ assigned_known_id (clearPaintFromUser paintID userName s).
Proof.
  intros Hk Ha. unfold clearPaintFromUser.
  repeat case_match; try done.
  split; [done|].
  intros u l Hl; cbn in *.
  apply lookup_delete_Some in Hl as [_ Hl]. by apply Ha in Hl.
Qed.

Lemma step_inv s op :
  known_ok s -> assigned_known_id s ->
  known_ok (step s op) /\ assigned_known_id (step s op).
Proof.
  destruct op; cbn [step];
    auto using addPaint_inv, assignPaintToUser_inv,
               clearPaintFromUser_inv, bulkMerge_inv.
Qed.

Lemma run_inv ops s :
  known_ok s -> assigned_known_id s ->
  known_ok (run ops s) /\ assigned_known_id (run ops s).
Proof.
  unfold run. revert s.
  induction ops as [|op ops IH]; cbn [fold_left]; intros s Hk Ha; [done|].
  destruct (step_inv s op Hk Ha). by apply IH.
Qed.

Lemma emptyRegistry_inv :
  known_ok emptyRegistry /\ assigned_known_id emptyRegistry.
Proof. split; intros k l H; cbn in H; by rewrite lookup_empty in H. Qed.

Lemma reachable_inv ops :
  known_ok (run ops emptyRegistry)
  /\ assigned_known_id (run ops emptyRegistry).
Proof. destruct emptyRegistry_inv. by apply run_inv. Qed.

(** *** The shared-instance invariant *)









(** ** The registry invariant *)


(** ** [addPaint] *)

(** C3. [addPaint] is first-writer-wins: a record whose id is already
    known leaves the whole registry unchanged; and after a record [r1]
    was inserted, adding any [r2] with the same id and then assigning the
    id to a user makes the lookup return the paint carrying the name of
    [r1]. *)
Theorem addPaint_first_writer_wins (s : SeventvPaints) :
  (forall r2, is_Some (knownPaints_ s !! toString (value r2 "id")) ->
     addPaint r2 s = s)
  /\ (forall r1 r2 userName l st',
       knownPaints_ s !! toString (value r1 "id") = None ->
       parsePaint r1 (store s) = (Some l, st') ->
       toString (value r2 "id") = toString (value r1 "id") ->
       let s1 := addPaint r1 s in
       let s2 :=
         assignPaintToUser (toString (value r1 "id")) userName
           (addPaint r2 s1) in
       addPaint r2 s1 = s1
       /\ getPaint userName s2 = Some l
       /\ exists p, store s2 !! l = Some p
                    /\ paint_name p = toString (value r1 "name")
                    /\ paint_id p = toString (value r1 "id")).
Proof.
  split; [intros r2; apply addPaint_known|].
  intros r1 r2 userName l st' K E Hid s1 s2.
  assert (H1 : s1 =
    mkSeventvPaints st'
      (<[toString (value r1 "id") := l]> (knownPaints_ s)) (paintMap_ s))
    by (by apply addPaint_Some).
  assert (H2 : addPaint r2 s1 = s1).
  { apply addPaint_known. rewrite Hid, H1; cbn.
    rewrite lookup_insert_eq. by eexists. }
  split; [done|].
  subst s2. rewrite H2, H1. unfold assignPaintToUser, getPaint; cbn.
  rewrite lookup_insert_eq; cbn. rewrite lookup_insert_eq.
  split; [done|].
  apply parsePaint_Some in E as (p & -> & -> & Hpid & Hname).
  exists p. split; [apply make_shared_lookup|done].
Qed.

(** C10. [addPaint] never touches [paintMap_]: every lookup answers the
    same before and after, whatever the record; [knownPaints_] keeps all
    its entries and gains at most the record's id. *)
Theorem addPaint_frame (paintJson : QJsonObject) (s : SeventvPaints) :
  let s' := addPaint paintJson s in
  paintMap_ s' = paintMap_ s
  /\ (forall u, getPaint u s' = getPaint u s)
  /\ knownPaints_ s ⊆ knownPaints_ s'
  /\ (knownPaints_ s' = knownPaints_ s
      \/ exists l,
           knownPaints_ s !! toString (value paintJson "id") = None
           /\ knownPaints_ s' =
                <[toString (value paintJson "id") := l]> (knownPaints_ s)).
Proof.
  intros s'. subst s'.
  destruct (knownPaints_ s !! toString (value paintJson "id")) as [l0|] eqn:K.
  { rewrite addPaint_known by (by eexists). by repeat split; [|left]. }
  destruct (parsePaint paintJson (store s)) as [[l|] st'] eqn:E.
  2:{ rewrite (addPaint_None _ _ _ E). by repeat split; [|left]. }
  rewrite (addPaint_Some _ _ _ _ K E); cbn.
  repeat split.
  - by apply insert_subseteq.
  - right. by exists l.
Qed.

(** ** [assignPaintToUser] and [clearPaintFromUser] *)

(** C5. In any reachable registry, assigning a known paint id makes the
    user's lookup return that id's paint, whatever the user held before,
    and touches nothing else; assigning an unknown id changes nothing. *)
Theorem assignPaintToUser_spec (ops : list Op) (paintID userName : QString) :
  let s := run ops emptyRegistry in
  let s' := assignPaintToUser paintID userName s in
  (forall l, knownPaints_ s !! paintID = Some l ->
     getPaint userName s' = Some l
     /\ (exists p, store s' !! l = Some p /\ paint_id p = paintID)
     /\ (forall u, u <> userName -> getPaint u s' = getPaint u s)
     /\ knownPaints_ s' = knownPaints_ s
     /\ store s' = store s)
  /\ (knownPaints_ s !! paintID = None -> s' = s).
Proof.
  intros s s'. subst s'. unfold assignPaintToUser, getPaint.
  split.
  - intros l K. rewrite K; cbn.
    rewrite lookup_insert_eq. split; [done|].
    split; [apply (proj1 (reachable_inv ops)), K|].
    split; [|done].
    intros u Hne. by rewrite lookup_insert_ne.
  - intros K. by rewrite K.
Qed.

(** C4. [clearPaintFromUser] erases the user's entry exactly when the
    user has one and the paint behind it carries the given id; then the
    lookup becomes absent and nothing else changes. In every other case,
    a non-matching id in particular, the registry is unchanged. *)
Theorem clearPaintFromUser_spec (paintID userName : QString)
    (s : SeventvPaints) :
  let s' := clearPaintFromUser paintID userName s in
  let held :=
    exists l p, paintMap_ s !! userName = Some l
                /\ store s !! l = Some p /\ paint_id p = paintID in
  (held ->
     getPaint userName s' = None
     /\ (forall u, u <> userName -> getPaint u s' = getPaint u s)
     /\ knownPaints_ s' = knownPaints_ s
     /\ store s' = store s)
  /\ (~ held -> s' = s)
  /\ (is_Some (getPaint userName s) /\ getPaint userName s' = None <-> held).
Proof.
  intros s' held. subst s' held. unfold clearPaintFromUser, getPaint.
  destruct (paintMap_ s !! userName) as [l|] eqn:M.
  2:{ split; [intros (l & p & [=] & _)|].
      split; [done|]. split; [by intros [[? [=]] _]|].
      intros (l & p & [=] & _). }
  destruct (store s !! l) as [p|] eqn:S.
  2:{ split; [intros (l' & p & [= <-] & ? & _); congruence|].
      split; [done|]. split; [intros [_ ?]; congruence|].
      intros (l' & p & [= <-] & ? & _); congruence. }
  destruct (String.eqb (paint_id p) paintID) eqn:E.
  - apply String.eqb_eq in E. cbn.
    split.
    { intros _. rewrite lookup_delete_eq. split; [done|].
      split; [|done]. intros u Hne. by rewrite lookup_delete_ne. }
    split; [intros H; exfalso; apply H; eauto|].
    rewrite lookup_delete_eq. split; [eauto|by split].
  - apply String.eqb_neq in E.
    assert (Hn : ~ exists l0 p0, Some l = Some l0
                   /\ store s !! l0 = Some p0 /\ paint_id p0 = paintID).
    { intros (l' & p' & [= <-] & S' & Hid). congruence. }
    split; [intros H; by destruct Hn|].
    split; [done|].
    split; [intros [_ ?]; congruence|intros H; by destruct Hn].
Qed.

(** ** Unknown variants and bulk merge *)

(** C8. A record whose [function] is none of the six accepted
    spellings does not parse and allocates nothing; [addPaint] of it
    leaves the registry unchanged; and in a bulk merge it can be dropped
    from the batch without changing the result. *)
Theorem unknown_function_skipped (paintJson : QJsonObject) :
  toString (value paintJson "function")
    ∉ ["LINEAR_GRADIENT"; "linear-gradient"; "RADIAL_GRADIENT";
       "radial-gradient"; "URL"; "url"]%string ->
  (forall st, parsePaint paintJson st = (None, st))
  /\ (forall s, addPaint paintJson s = s)
  /\ (forall v s, toObject v = paintJson -> mergePaint s v = s)
  /\ (forall v pre post s, toObject v = paintJson ->
        bulkMerge (pre ++ v :: post) s = bulkMerge (pre ++ post) s).
Proof.
  intros Hf.
  assert (P : forall st, parsePaint paintJson st = (None, st)).
  { intros st. unfold parsePaint.
    repeat (apply not_elem_of_cons in Hf as [?%String.eqb_neq Hf]).
    by repeat match goal with H : String.eqb _ _ = false |- _ =>
                rewrite H; clear H end. }
  split; [done|].
  split; [intros s; by apply (addPaint_None _ _ (store s))|].
  assert (M : forall v s, toObject v = paintJson -> mergePaint s v = s).
  { intros v s <-. by apply (mergePaint_None _ _ (store s)). }
  split; [done|].
  intros v pre post s Hv. unfold bulkMerge.
  rewrite !fold_left_app. cbn [fold_left]. by rewrite M.
Qed.

(** C9. When a bulk merge ends with a record that parses and lists the
    users [u1] and [u2], both lookups return one and the same pointer,
    and the paint behind it carries the record's id. *)
Theorem bulkMerge_users_share (pre : QJsonArray) (v : QJsonValue)
    (s : SeventvPaints) (u1 u2 : QString) (l : PaintPtr) (st' : Store) :
  parsePaint (toObject v) (store (bulkMerge pre s)) = (Some l, st') ->
  toArray (value (toObject v) "users") = [String u1; String u2] ->
  let s' := bulkMerge (pre ++ [v]) s in
  getPaint u1 s' = Some l
  /\ getPaint u2 s' = Some l
  /\ knownPaints_ s' !! toString (value (toObject v) "id") = Some l
  /\ exists p, store s' !! l = Some p
               /\ paint_id p = toString (value (toObject v) "id").
Proof.
  intros E Hu s'. subst s'. unfold bulkMerge in *.
  rewrite fold_left_app. cbn [fold_left].
  rewrite (mergePaint_Some _ _ _ _ E). unfold getPaint; cbn.
  split; [apply assignUsers_listed; rewrite Hu; cbn; set_solver|].
  split; [apply assignUsers_listed; rewrite Hu; cbn; set_solver|].
  split; [apply lookup_insert_eq|].
  apply parsePaint_Some in E as (p & -> & -> & Hid & _).
  exists p. split; [apply make_shared_lookup|done].
Qed.

End Registry.



(** ** Witnesses for the registry theorems *)

Lemma addPaint_first_writer_wins_witness :
  let r1 := toObject (paintRecord "p1" "first" "linear-gradient" []) in
  let r2 := toObject (paintRecord "p1" "second" "radial-gradient" []) in
  let s1 := addPaint noImage r1 emptyRegistry in
  let s2 := assignPaintToUser "p1" "alice" (addPaint noImage r2 s1) in
  addPaint noImage r2 s1 = s1
  /\ getPaint "alice" s2 = Some 0%nat
  /\ exists p, store s2 !! 0%nat = Some p
               /\ paint_name p = "first"%string
               /\ paint_id p = "p1"%string.
Proof.
  intros r1 r2.
  refine (proj2 (addPaint_first_writer_wins noImage emptyRegistry)
            r1 r2 "alice"%string 0%nat
            (snd (parsePaint noImage r1 [])) _ _ _);
    by vm_compute.
Defined.

Lemma assignPaintToUser_spec_witness :
  let ops := [AddKnownPaint (toObject (paintRecord "p1" "n" "url" []))] in
  let s := run anyImage ops emptyRegistry in
  (getPaint "alice" (assignPaintToUser "p1" "alice" s) = Some 0%nat
   /\ exists p, store s !! 0%nat = Some p /\ paint_id p = "p1"%string)
  /\ assignPaintToUser "p404" "bob" s = s.
Proof.
  intros ops s.
  destruct (assignPaintToUser_spec anyImage ops "p1" "alice") as [H _].
  destruct (H 0%nat) as (H1 & H2 & _); [by vm_compute|].
  destruct (assignPaintToUser_spec anyImage ops "p404" "bob") as [_ H'].
  split; [split; [exact H1|exact H2]|].
  apply H'. by vm_compute.
Defined.

Lemma clearPaintFromUser_spec_witness :
  let s :=
    run anyImage
      [AddKnownPaint (toObject (paintRecord "p1" "n" "url" []));
       Assign "p1" "alice"] emptyRegistry in
  getPaint "alice" (clearPaintFromUser "p1" "alice" s) = None
  /\ clearPaintFromUser "p2" "alice" s = s.
Proof.
  intros s. split.
  - apply (proj1 (clearPaintFromUser_spec "p1" "alice" s)).
    exists 0%nat. eexists. by vm_compute.
  - apply (proj1 (proj2 (clearPaintFromUser_spec "p2" "alice" s))).
    intros (l & p & Hl & Hp & Hid).
    vm_compute in Hl. injection Hl as <-.
    vm_compute in Hp. injection Hp as <-.
    discriminate Hid.
Defined.

Lemma unknown_function_skipped_witness :
  let v := paintRecord "p9" "odd" "unknown-thing" ["alice"] in
  let w := paintRecord "p1" "n" "url" ["bob"] in
  addPaint anyImage (toObject v) emptyRegistry = emptyRegistry
  /\ bulkMerge anyImage ([w] ++ v :: [w]) emptyRegistry
     = bulkMerge anyImage ([w] ++ [w]) emptyRegistry.
Proof.
  intros v w.
  assert (H : toString (value (toObject v) "function")
                ∉ ["LINEAR_GRADIENT"; "linear-gradient"; "RADIAL_GRADIENT";
                   "radial-gradient"; "URL"; "url"]%string)
    by (apply (bool_decide_unpack _); by vm_compute).
  destruct (unknown_function_skipped anyImage (toObject v) H)
    as (_ & A & _ & B).
  split; [apply A|by apply B].
Defined.

Lemma bulkMerge_users_share_witness :
  let v := paintRecord "p7" "n" "url" ["u1"; "u2"] in
  let s := bulkMerge anyImage ([] ++ [v]) emptyRegistry in
  getPaint "u1" s = Some 0%nat
  /\ getPaint "u2" s = Some 0%nat
  /\ knownPaints_ s !! "p7"%string = Some 0%nat
  /\ exists p, store s !! 0%nat = Some p /\ paint_id p = "p7"%string.
Proof.
  intros v.
  refine (bulkMerge_users_share anyImage [] v emptyRegistry
            "u1"%string "u2"%string 0%nat
            (snd (parsePaint anyImage (toObject v) [])) _ _);
    by vm_compute.
Defined.

(** ** Colour decoding *)

Lemma lor_high_low (hi lo n : Z) :
  0 <= n -> 0 <= lo < 2 ^ n -> Z.lor (hi * 2 ^ n) lo = hi * 2 ^ n + lo.
Proof.
  intros Hn Hlo.
  assert (D : Z.land (hi * 2 ^ n) lo = 0).
  { apply Z.bits_inj'. intros i Hi.
    rewrite Z.land_spec, Z.bits_0.
    destruct (Z.lt_ge_cases i n) as [Hlt|Hge].
    - rewrite Z.mul_pow2_bits_low by lia. reflexivity.
    - rewrite <- (Z.mod_small lo (2 ^ n)) by lia.
      rewrite Z.mod_pow2_bits_high by lia. apply andb_false_r. }
  rewrite <- Z.lxor_lor by exact D.
  symmetry. apply Z.add_nocarry_lxor, D.
Qed.

(** The packed layout is positional notation in base 256. *)
Lemma packed_rgba_sum r g b a :
  0 <= r < 256 -> 0 <= g < 256 -> 0 <= b < 256 -> 0 <= a < 256 ->
  packed_rgba r g b a = r * 2 ^ 24 + g * 2 ^ 16 + b * 2 ^ 8 + a.
Proof.
  intros Hr Hg Hb Ha. unfold packed_rgba.
  rewrite !Z.shiftl_mul_pow2 by lia.
  rewrite (lor_high_low r (g * 2 ^ 16) 24) by lia.
  replace (r * 2 ^ 24 + g * 2 ^ 16) with ((r * 2 ^ 8 + g) * 2 ^ 16) by lia.
  rewrite (lor_high_low _ (b * 2 ^ 8) 16) by lia.
  replace ((r * 2 ^ 8 + g) * 2 ^ 16 + b * 2 ^ 8)
    with ((r * 2 ^ 16 + g * 2 ^ 8 + b) * 2 ^ 8) by lia.
  rewrite (lor_high_low _ a 8) by lia. lia.
Qed.

Lemma byte_at (x n : Z) :
  0 <= n -> Z.land (Z.shiftr x n) 255 = (x / 2 ^ n) mod 256.
Proof.
  intros Hn. rewrite Z.shiftr_div_pow2 by lia.
  change 255 with (Z.ones 8). by rewrite Z.land_ones by lia.
Qed.

(** C6. Decoding the packed integer of four channels, each in 0..255,
    gives back exactly those channels; the packed integer is a 32-bit
    value, so the conversion to [uint32_t] leaves it alone. *)
Theorem rgbaToQColor_packed_roundtrip (r g b a : Z) :
  0 <= r < 256 -> 0 <= g < 256 -> 0 <= b < 256 -> 0 <= a < 256 ->
  rgbaToQColor (packed_rgba r g b a) = mkQColor r g b a
  /\ to_uint32 (packed_rgba r g b a) = packed_rgba r g b a.
Proof.
  intros Hr Hg Hb Ha.
  rewrite (packed_rgba_sum r g b a) by done.
  unfold rgbaToQColor, to_uint32.
  rewrite !byte_at by lia.
  change 255 with (Z.ones 8). rewrite Z.land_ones by lia.
  split.
  - f_equal; Z.div_mod_to_equations; lia.
  - apply Z.mod_small. lia.
Qed.

Lemma rgbaToQColor_packed_roundtrip_witness :
  rgbaToQColor (packed_rgba 255 128 0 64) = mkQColor 255 128 0 64
  /\ to_uint32 (packed_rgba 255 128 0 64) = packed_rgba 255 128 0 64.
Proof. apply rgbaToQColor_packed_roundtrip; lia. Defined.

(** ** Binary64 rounding

    What the addition [position + 0.0000001] does to a position of the
    normalized range: the exact sum lies in the normal range, so
    rounding keeps 53 significant bits, and the sum is at least
    2^-24, far above half an ulp of any number up to 1. *)

Lemma digits2_pos_log2 (m : positive) :
  Zpos (digits2_pos m) = Z.log2 (Zpos m) + 1.
Proof.
  assert (S : forall p, digits2_pos p = Pos.size p)
    by (induction p; simpl; congruence).
  rewrite S. destruct m; simpl; lia.
Qed.

Lemma digits2_pos_bounds (m : positive) :
  2 ^ (Zpos (digits2_pos m) - 1) <= Zpos m < 2 ^ Zpos (digits2_pos m).
Proof.
  rewrite digits2_pos_log2.
  replace (Z.log2 (Z.pos m) + 1 - 1) with (Z.log2 (Z.pos m)) by lia.
  pose proof (Z.log2_spec (Zpos m) ltac:(lia)). 
  replace (Z.log2 (Z.pos m) + 1) with (Z.succ (Z.log2 (Z.pos m))) by lia. lia.
Qed.

Lemma iter_xO_pow2 (m d : positive) :
  Zpos (Pos.iter xO m d) = Zpos m * 2 ^ Zpos d.
Proof.
  induction d as [|d IH] using Pos.peano_ind.
  - simpl. lia.
  - rewrite Pos.iter_succ, Pos2Z.inj_xO, IH, Pos2Z.inj_succ, Z.pow_succ_r by lia.
    lia.
Qed.

Lemma shl_align_fst (m : positive) (e e' : Z) :
  e' <= e -> Zpos (fst (shl_align m e e')) = Zpos m * 2 ^ (e - e').
Proof.
  intros H. unfold shl_align.
  destruct (e' - e) as [|d|d] eqn:E.
  - replace (e - e') with 0 by lia. cbn [fst]. rewrite Z.pow_0_r. lia.
  - lia.
  - cbn [fst]. rewrite iter_xO_pow2. f_equal. f_equal. lia.
Qed.

Lemma shl_align_id (m : positive) (e e' : Z) :
  e <= e' -> shl_align m e e' = (m, e).
Proof.
  intros H. unfold shl_align. destruct (e' - e) eqn:E; try reflexivity. lia.
Qed.

Lemma shr_1_m (r : shr_record) :
  0 <= shr_m r -> shr_m (shr_1 r) = shr_m r / 2.
Proof.
  intros H. rewrite <- Z.div2_div.
  destruct r as [m rb sb]. cbn [shr_m] in *.
  destruct m as [|[p|p|]|p]; try reflexivity; lia.
Qed.

Lemma pow2_xI (n : positive) :
  2 ^ Zpos n~1 = 2 * 2 ^ Zpos n * 2 ^ Zpos n.
Proof.
  rewrite (Pos2Z.inj_xI n).
  replace (2 * Z.pos n + 1) with (1 + Z.pos n + Z.pos n) by lia.
  rewrite !Z.pow_add_r by lia. reflexivity.
Qed.

Lemma pow2_xO (n : positive) : 2 ^ Zpos n~0 = 2 ^ Zpos n * 2 ^ Zpos n.
Proof.
  rewrite (Pos2Z.inj_xO n).
  replace (2 * Z.pos n) with (Z.pos n + Z.pos n) by lia.
  rewrite Z.pow_add_r by lia. reflexivity.
Qed.

Lemma iter_shr_1_m (n : positive) (r : shr_record) :
  0 <= shr_m r -> shr_m (SpecFloat.iter_pos shr_1 n r) = shr_m r / 2 ^ Zpos n.
Proof.
  revert r. induction n as [n IH|n IH|]; intros r H; cbn [SpecFloat.iter_pos].
  - assert (H1 : 0 <= shr_m (shr_1 r))
      by (rewrite shr_1_m by lia; apply Z.div_pos; lia).
    assert (H2 : 0 <= shr_m (SpecFloat.iter_pos shr_1 n (shr_1 r)))
      by (rewrite IH by lia; apply Z.div_pos; lia).
    rewrite IH, IH, shr_1_m by lia.
    rewrite pow2_xI, <- !Z.div_div by lia. reflexivity.
  - assert (H2 : 0 <= shr_m (SpecFloat.iter_pos shr_1 n r))
      by (rewrite IH by lia; apply Z.div_pos; lia).
    rewrite IH, IH by lia.
    rewrite pow2_xO, <- !Z.div_div by lia. reflexivity.
  - rewrite shr_1_m by lia. reflexivity.
Qed.

Lemma shr_spec (r : shr_record) (e n : Z) :
  0 <= shr_m r ->
  snd (shr r e n) = e + Z.max n 0
  /\ shr_m (fst (shr r e n)) = shr_m r / 2 ^ Z.max n 0.
Proof.
  intros H. unfold shr. destruct n as [|p|p]; simpl fst; simpl snd.
  - rewrite Z.max_id. simpl. rewrite Z.div_1_r. lia.
  - rewrite Z.max_l by lia. split; [reflexivity|]. apply iter_shr_1_m, H.
  - rewrite Z.max_r by lia. simpl. rewrite Z.div_1_r. lia.
Qed.

Lemma round_nearest_even_bounds (m : Z) (l : location) :
  m <= round_nearest_even m l <= m + 1.
Proof.
  unfold round_nearest_even.
  destruct l as [|[| |]]; try destruct (Z.even m); lia.
Qed.

Lemma shr_m_record_of_loc (m : Z) (l : location) :
  shr_m (shr_record_of_loc m l) = m.
Proof. destruct l as [|[| |]]; reflexivity. Qed.

Lemma ltb_finite_pos (m mR : positive) (e eR : Z) :
  e < eR \/ (e = eR /\ (m < mR)%positive) ->
  SFltb (S754_finite false m e) (S754_finite false mR eR) = true.
Proof.
  unfold SFltb, SFcompare. intros [H|[-> H]].
  - apply Z.compare_lt_iff in H. rewrite H. reflexivity.
  - rewrite Z.compare_refl. 
    change (Pos.compare_cont Eq m mR) with (Pos.compare m mR).
    apply Pos.compare_lt_iff in H. rewrite H. reflexivity.
Qed.

Lemma pow2_lt_inv (x y : Z) : 0 <= y -> 2 ^ x < 2 ^ y -> x < y.
Proof. intros Hy H. apply (Z.pow_lt_mono_r_iff 2); lia. Qed.

Lemma bounded_fexp m e : bounded 53 1024 m e = true ->
  e = Z.max (Zpos (digits2_pos m) + e - 53) (-1074) /\ e <= 971.
Proof.
  unfold bounded, canonical_mantissa, fexp, emin. intros H.
  apply andb_true_iff in H as [H1 H2].
  apply Z.eqb_eq in H1. apply Z.leb_le in H2. simpl in *. lia.
Qed.

Lemma fexp_normal (d : Z) : -1074 <= d - 53 -> fexp 53 1024 d = d - 53.
Proof. intros H. unfold fexp, emin. simpl. lia. Qed.

Lemma div_pow2_digits (M : positive) (k : Z) :
  0 <= k -> k <= Zpos (digits2_pos M) - 1 ->
  2 ^ (Zpos (digits2_pos M) - 1 - k) <= Zpos M / 2 ^ k
    < 2 ^ (Zpos (digits2_pos M) - k).
Proof.
  intros Hk Hk'. pose proof (digits2_pos_bounds M) as [Hl Hu].
  set (D := Zpos (digits2_pos M)) in *.
  assert (P : 0 < 2 ^ k) by (apply Z.pow_pos_nonneg; lia).
  split.
  - apply Z.div_le_lower_bound; [lia|].
    rewrite <- Z.pow_add_r by lia.
    replace (k + (D - 1 - k)) with (D - 1) by lia. exact Hl.
  - apply Z.div_lt_upper_bound; [lia|].
    rewrite <- Z.pow_add_r by lia.
    replace (k + (D - k)) with D by lia. exact Hu.
Qed.

Lemma binary_round_normal (M : positive) (ez : Z) :
  let D := Zpos (digits2_pos M) in
  let E1 := D + ez - 53 in
  53 <= D -> -1074 <= E1 -> E1 + 1 <= 971 ->
  exists mR eR,
    binary_round 53 1024 false M ez = S754_finite false mR eR
    /\ E1 <= eR
    /\ (eR = E1 -> Zpos M / 2 ^ (D - 53) <= Zpos mR).
Proof.
  intros D E1 HD HE1 HE2.
  unfold binary_round.
  change (Z.pos (digits2_pos M)) with D.
  rewrite (fexp_normal (D + ez)) by (unfold E1 in *; lia).
  fold E1.
  rewrite shl_align_id by (unfold E1; lia).
  unfold binary_round_aux, shr_fexp. cbn [Zdigits2].
  change (Z.pos (digits2_pos M)) with D.
  rewrite (fexp_normal (D + ez)) by (unfold E1 in *; lia). fold E1.
  pose proof (shr_spec (shr_record_of_loc (Zpos M) loc_Exact) ez (E1 - ez))
    as [Hs Hm]; [cbn; lia|].
  destruct (shr _ ez (E1 - ez)) as [mrs' e']. cbn [fst snd] in Hs, Hm.
  rewrite Z.max_l in Hs, Hm by (unfold E1; lia).
  replace (ez + (E1 - ez)) with E1 in Hs by lia. subst e'.
  replace (E1 - ez) with (D - 53) in Hm by (unfold E1; lia).
  cbn [shr_m shr_record_of_loc] in Hm.
  pose proof (div_pow2_digits M (D - 53)) as Hm1.
  fold D in Hm1. rewrite <- Hm in Hm1.
  replace (D - 1 - (D - 53)) with 52 in Hm1 by lia.
  replace (D - (D - 53)) with 53 in Hm1 by lia.
  specialize (Hm1 ltac:(lia) ltac:(lia)).
  pose proof (round_nearest_even_bounds (shr_m mrs') (loc_of_shr_record mrs'))
    as Hr.
  set (m2 := round_nearest_even (shr_m mrs') (loc_of_shr_record mrs')) in *.
  destruct m2 as [|q2|q2] eqn:Eq2; try lia.
  cbn [Zdigits2].
  pose proof (digits2_pos_bounds q2) as Hq2.
  set (D2 := Zpos (digits2_pos q2)) in *.
  assert (HD2 : 53 <= D2 <= 54).
  { split.
    - assert (2 ^ 52 < 2 ^ D2) by lia.
      apply pow2_lt_inv in H; lia.
    - assert (2 ^ (D2 - 1) < 2 ^ 54) by lia.
      apply pow2_lt_inv in H; lia. }
  rewrite (fexp_normal (D2 + E1)) by lia.
  pose proof (shr_spec (shr_record_of_loc (Zpos q2) loc_Exact) E1
                (D2 + E1 - 53 - E1)) as [Hs2 Hm2]; [cbn; lia|].
  destruct (shr _ E1 (D2 + E1 - 53 - E1)) as [mrs'' e''].
  cbn [fst snd] in Hs2, Hm2.
  rewrite Z.max_l in Hs2, Hm2 by lia.
  replace (D2 + E1 - 53 - E1) with (D2 - 53) in * by lia.
  cbn [shr_m shr_record_of_loc] in Hm2.
  pose proof (div_pow2_digits q2 (D2 - 53)) as Hm3.
  fold D2 in Hm3. rewrite <- Hm2 in Hm3.
  replace (D2 - 1 - (D2 - 53)) with 52 in Hm3 by lia.
  specialize (Hm3 ltac:(lia) ltac:(lia)).
  destruct (shr_m mrs'') as [|q3|q3] eqn:Eq3; try lia.
  replace (e'' <=? 1024 - 53) with true by (symmetry; apply Z.leb_le; lia).
  exists q3, e''. split; [reflexivity|]. split; [lia|].
  intros HeE. assert (D2 = 53) by lia.
  replace (D2 - 53) with 0 in Hm2 by lia.
  rewrite Z.pow_0_r, Z.div_1_r in Hm2. lia.
Qed.

Lemma pow2_le (x y : Z) : 0 <= x <= y -> 2 ^ x <= 2 ^ y.
Proof. intros H. apply Z.pow_le_mono_r; lia. Qed.

Lemma add_lit_above (m : positive) (e : Z) :
  bounded 53 1024 m e = true ->
  e <= -52 -> (e = -52 -> Zpos m <= 2^52) ->
  exists mR eR, Double.add (S754_finite false m e) Double.lit_1e_7 = S754_finite false mR eR /\ (e < eR \/ (e = eR /\ (m < mR)%positive)).
Proof.
  intros Hb He He52.
  apply bounded_fexp in Hb as [Hcan _].
  pose proof (digits2_pos_bounds m) as Hdm.
  set (dm := Zpos (digits2_pos m)) in *.
  assert (Hdm0 : 0 < dm) by (unfold dm; lia).
  unfold Double.add, Double.lit_1e_7, Double.prec, Double.emax.
  set (mc := 7555786372591432%positive).
  cbn [SFadd cond_Zopp].
  set (ez := Z.min e (-76)).
  assert (Ha : ez <= e) by (unfold ez; lia).
  assert (Hb : ez <= -76) by (unfold ez; lia).
  assert (Hez : ez = e \/ ez = -76) by (unfold ez; lia).
  pose proof (shl_align_fst m e ez Ha) as H1.
  pose proof (shl_align_fst mc (-76) ez Hb) as H2.
  set (x1 := fst (shl_align m e ez)) in *.
  set (x2 := fst (shl_align mc (-76) ez)) in *.
  change (Z.pos x1 + Z.pos x2) with (Zpos (x1 + x2)).
  set (M := (x1 + x2)%positive).
  assert (HM : Zpos M = Zpos m * 2 ^ (e - ez) + Zpos mc * 2 ^ (-76 - ez))
    by (unfold M; rewrite Pos2Z.inj_add; congruence).
  clearbody M. clear H1 H2 x1 x2.
  cbn [binary_normalize].
  set (a := e - ez) in *. set (b := -76 - ez) in *.
  assert (Pa : 0 < 2 ^ a) by (apply Z.pow_pos_nonneg; lia).
  assert (Pb : 0 < 2 ^ b) by (apply Z.pow_pos_nonneg; lia).
  assert (Hmc : 2 ^ 52 <= Zpos mc < 2 ^ 53) by (unfold mc; lia).
  pose proof (digits2_pos_bounds M) as HD.
  set (D := Zpos (digits2_pos M)) in *.
  (* the sum lies in [2^(52+b), 2^(1-ez)) *)
  assert (Hlow : 2 ^ (52 + b) <= Zpos M).
  { rewrite Z.pow_add_r by lia. nia. }
  assert (Hdm53 : dm <= 53) by lia.
  assert (Hm_le : Zpos m <= 2 ^ (- e)).
  { destruct (Z.eq_dec e (-52)) as [->|Hne]; [apply He52; reflexivity|].
    pose proof (pow2_le dm 53 ltac:(lia)).
    pose proof (pow2_le 53 (- e) ltac:(lia)). lia. }
  assert (Hupp : Zpos M < 2 ^ (1 - ez)).
  { replace (1 - ez) with (1 + - ez) by lia.
    rewrite Z.pow_add_r by lia. change (2 ^ 1) with 2.
    assert (Zpos m * 2 ^ a <= 2 ^ (- ez)).
    { replace (- ez) with (- e + a) by (unfold a; lia).
      rewrite Z.pow_add_r by lia. nia. }
    assert (Zpos mc * 2 ^ b < 2 ^ (- ez)).
    { pose proof (pow2_le (53 + b) (- ez) ltac:(unfold b; lia)) as P.
      rewrite Z.pow_add_r in P by lia. nia. }
    lia. }
  assert (HD1 : 52 + b < D) by (apply pow2_lt_inv; lia).
  assert (HD2 : D - 1 < 1 - ez) by (apply pow2_lt_inv; lia).
  assert (HD3 : dm - 1 + a < D).
  { apply pow2_lt_inv; [lia|].
    rewrite Z.pow_add_r by lia. nia. }
  destruct (binary_round_normal M ez) as (mR & eR & Heq & HE & Hval);
    fold D; try (unfold b in *; lia).
  exists mR, eR. split; [exact Heq|].
  fold D in HE, Hval.
  assert (HeE : e <= D + ez - 53) by (unfold a, b in *; lia).
  destruct (Z.eq_dec e eR) as [<-|Hne]; [right|left; lia].
  split; [reflexivity|].
  apply Pos2Z.pos_lt_pos.
  specialize (Hval ltac:(lia)).
  replace (D - 53) with a in Hval by (unfold a; lia).
  assert (Zpos m + 1 <= Zpos M / 2 ^ a); [|lia].
  apply Z.div_le_lower_bound; [lia|].
  pose proof (pow2_le a (52 + b) ltac:(unfold a, b; lia)) as P.
  rewrite Z.pow_add_r in P by lia.
  assert (2 ^ 52 * 2 ^ b <= Zpos mc * 2 ^ b) by nia.
  lia.
Qed.

(** ** Gradient stops *)

(** The numbers of the normalized range [0, 1] among the binary64
    numbers. *)
Lemma unit_range_cases (p : spec_float) :
  Double.valid p = true ->
  Double.leb Double.zero p = true -> Double.leb p Double.one = true ->
  (exists s, p = S754_zero s)
  \/ exists m e, p = S754_finite false m e
                 /\ bounded 53 1024 m e = true
                 /\ e <= -52 /\ (e = -52 -> Zpos m <= 2 ^ 52).
Proof.
  intros Hv H0 H1. destruct p as [s|s| |s m e].
  - left. by exists s.
  - by destruct s.
  - done.
  - right. exists m, e. destruct s; [done|].
    split; [done|]. split; [exact Hv|].
    unfold Double.leb, SFleb, Double.one in H1. cbn [SFcompare] in H1.
    destruct (Z.compare_spec e (-52)) as [->|Hlt|Hgt]; [|lia|done].
    split; [lia|]. intros _.
    change (2 ^ 52) with 4503599627370496.
    destruct (Pos.compare_cont Eq m 4503599627370496) eqn:C;
      [apply (Pos.compare_eq_iff m) in C; by subst m
      |apply (Pos.compare_lt_iff m), Pos2Z.pos_lt_pos in C; lia
      |discriminate H1].
Qed.

Lemma eqb_refl_unit_range (p : spec_float) :
  Double.leb Double.zero p = true -> Double.eqb p p = true.
Proof.
  destruct p as [s|s| |s m e]; try done; [by destruct s|].
  intros _. unfold Double.eqb, SFeqb. cbn [SFcompare].
  rewrite Z.compare_refl.
  change (Pos.compare_cont Eq m m) with (Pos.compare m m).
  rewrite Pos.compare_refl. by destruct s.
Qed.

Lemma eqb_minus_one_unit_range (p : spec_float) :
  Double.leb Double.zero p = true -> Double.eqb p Double.minus_one = false.
Proof. destruct p as [s|s| |[] m e]; try done; by destruct s. Qed.

(** Within the normalized range the nudge moves the position strictly
    upwards. *)
Lemma nudge_above (p : spec_float) :
  Double.valid p = true ->
  Double.leb Double.zero p = true -> Double.leb p Double.one = true ->
  Double.ltb p (Double.add p Double.lit_1e_7) = true.
Proof.
  intros Hv H0 H1.
  destruct (unit_range_cases p Hv H0 H1)
    as [[s ->]|(m & e & -> & Hb & He & He52)].
  - by destruct s.
  - destruct (add_lit_above m e Hb He He52) as (mR & eR & -> & Hlt).
    by apply ltb_finite_pos.
Qed.

Lemma ltb_not_eqb (p q : spec_float) :
  Double.ltb p q = true -> Double.eqb p q = false /\ Double.eqb q p = false.
Proof.
  unfold Double.ltb, Double.eqb, SFltb, SFeqb.
  destruct p as [s|s| |s m e], q as [t|t| |t n f]; cbn [SFcompare];
    try done; try (by destruct s); try (by destruct t);
    try (by destruct s, t).
  destruct s, t; try done; intros H.
  - destruct (Z.compare_spec e f) as [->|Hlt|Hgt]; try done.
    + rewrite Z.compare_refl.
      change (Pos.compare_cont Eq m n) with (Pos.compare m n) in *.
      change (Pos.compare_cont Eq n m) with (Pos.compare n m).
      rewrite (Pos.compare_antisym m n).
      by destruct (Pos.compare m n).
    + split; [done|].
      destruct (Z.compare_spec f e); try done; lia.
  - destruct (Z.compare_spec e f) as [->|Hlt|Hgt]; try done.
    + rewrite Z.compare_refl.
      change (Pos.compare_cont Eq m n) with (Pos.compare m n) in *.
      change (Pos.compare_cont Eq n m) with (Pos.compare n m).
      rewrite (Pos.compare_antisym m n).
      by destruct (Pos.compare m n).
    + split; [done|].
      destruct (Z.compare_spec f e); try done; lia.
Qed.

Lemma ltb_asym (p q : spec_float) :
  Double.ltb p q = true -> Double.ltb q p = false.
Proof.
  unfold Double.ltb, SFltb.
  destruct p as [s|s| |s m e], q as [t|t| |t n f]; cbn [SFcompare];
    try done; try (by destruct s); try (by destruct t);
    try (by destruct s, t).
  destruct s, t; try done; intros H.
  - destruct (Z.compare_spec e f) as [->|Hlt|Hgt]; try done.
    + rewrite Z.compare_refl.
      change (Pos.compare_cont Eq m n) with (Pos.compare m n) in *.
      change (Pos.compare_cont Eq n m) with (Pos.compare n m).
      rewrite (Pos.compare_antisym m n).
      by destruct (Pos.compare m n).
    + destruct (Z.compare_spec f e); try done; lia.
  - destruct (Z.compare_spec e f) as [->|Hlt|Hgt]; try done.
    + rewrite Z.compare_refl.
      change (Pos.compare_cont Eq m n) with (Pos.compare m n) in *.
      change (Pos.compare_cont Eq n m) with (Pos.compare n m).
      rewrite (Pos.compare_antisym m n).
      by destruct (Pos.compare m n).
    + destruct (Z.compare_spec f e); try done; lia.
Qed.

Lemma eqb_sym (p q : spec_float) : Double.eqb p q = Double.eqb q p.
Proof.
  unfold Double.eqb, SFeqb.
  destruct p as [s|s| |s m e], q as [t|t| |t n f]; cbn [SFcompare];
    try done; try (by destruct s); try (by destruct t);
    try (by destruct s, t).
  change (Pos.compare_cont Eq m n) with (Pos.compare m n).
  change (Pos.compare_cont Eq n m) with (Pos.compare n m).
  rewrite (Z.compare_antisym e f), (Pos.compare_antisym m n).
  destruct s, t; try done;
    by destruct (Z.compare e f), (Pos.compare m n).
Qed.

Lemma eqb_true_cases (p q : spec_float) :
  Double.eqb p q = true ->
  p = q \/ exists s t, p = S754_zero s /\ q = S754_zero t.
Proof.
  unfold Double.eqb, SFeqb.
  destruct p as [s|s| |s m e], q as [t|t| |t n f]; cbn [SFcompare];
    try done; try (by destruct s); try (by destruct t);
    try (by destruct s, t; auto).
  - right. by exists s, t.
  - change (Pos.compare_cont Eq m n) with (Pos.compare m n).
    intros H. left.
    destruct s, t; try done;
      destruct (Z.compare_spec e f) as [->|?|?]; try done;
      destruct (Pos.compare_spec m n) as [->|?|?]; done.
Qed.

(** ** Binary64 rounding to nearest *)





















(** ** Two equal stops, for every position *)











(** C2. Three consecutive stop records with the same position [p] of
    the normalized range: the second is nudged, and the third, compared
    with the nudged position, is not; the parsed positions are [p],
    [p + 0.0000001], [p], which is not strictly increasing. *)
Theorem three_equal_stops_not_increasing (o1 o2 o3 : QJsonObject)
    (p : spec_float) :
  Double.valid p = true ->
  Double.leb Double.zero p = true -> Double.leb p Double.one = true ->
  toDouble (value o1 "at") = p -> toDouble (value o2 "at") = p ->
  toDouble (value o3 "at") = p ->
  map fst (parsePaintStops [Object o1; Object o2; Object o3])
  = [p; Double.add p Double.lit_1e_7; p]
  /\ Double.ltb (Double.add p Double.lit_1e_7) p = false
  /\ strictly_increasing
       (map fst (parsePaintStops [Object o1; Object o2; Object o3]))
     = false.
Proof.
  intros Hv H0 H1 E1 E2 E3.
  pose proof (nudge_above p Hv H0 H1) as L.
  destruct (ltb_not_eqb _ _ L) as [N _].
  assert (P : map fst (parsePaintStops [Object o1; Object o2; Object o3])
              = [p; Double.add p Double.lit_1e_7; p]).
  { unfold parsePaintStops. cbn [parsePaintStops_loop toObject].
    rewrite E1, E2, E3.
    rewrite (eqb_minus_one_unit_range p H0), (eqb_refl_unit_range p H0).
    rewrite N. reflexivity. }
  split; [exact P|]. split; [by apply ltb_asym|].
  rewrite P. cbn [strictly_increasing].
  rewrite L, (ltb_asym _ _ L). reflexivity.
Qed.

Lemma three_equal_stops_not_increasing_witness :
  map fst (parsePaintStops [stopRecord Double.half 255;
                            stopRecord Double.half 65535;
                            stopRecord Double.half 16777215])
  = [Double.half; S754_finite false 4503600528090421 (-53); Double.half]
  /\ strictly_increasing
       (map fst (parsePaintStops [stopRecord Double.half 255;
                                  stopRecord Double.half 65535;
                                  stopRecord Double.half 16777215]))
     = false.
Proof.
  pose proof (three_equal_stops_not_increasing
                (toObject (stopRecord Double.half 255))
                (toObject (stopRecord Double.half 65535))
                (toObject (stopRecord Double.half 16777215)) Double.half
                eq_refl eq_refl eq_refl eq_refl eq_refl eq_refl)
    as (P & _ & S).
  exact (conj P S).
Defined.

(** The range cannot be dropped. At the sentinel value -1 the first
    stop itself is nudged and the second is not. *)
Example sentinel_position_is_nudged :
  map fst (parsePaintStops [stopRecord Double.minus_one 255;
                            stopRecord Double.minus_one 65535])
  = [Double.add Double.minus_one Double.lit_1e_7; Double.minus_one].
Proof. by vm_compute. Qed.

(** From 2^30 on, the nudge is absorbed by rounding. *)
Example large_position_absorbs_nudge :
  Double.add (Double.of_Z (2 ^ 30)) Double.lit_1e_7 = Double.of_Z (2 ^ 30).
Proof. by vm_compute. Qed.

(** Four equal positions: the nudge alternates. *)
Example four_equal_stops :
  map fst (parsePaintStops [stopRecord Double.half 1; stopRecord Double.half 2;
                            stopRecord Double.half 3; stopRecord Double.half 4])
  = [Double.half; Double.add Double.half Double.lit_1e_7;
     Double.half; Double.add Double.half Double.lit_1e_7].
Proof. by vm_compute. Qed.

(** The literal is the correctly rounded quotient 1 / 10^7. *)
Example lit_1e_7_nearest :
  Double.div (Double.of_Z 1) (Double.of_Z 10000000) = Double.lit_1e_7.
Proof. by vm_compute. Qed.

(** ** The variant tags *)

(** Each of the six spellings parses (the URL ones when the image
    resolves), and the match is case-sensitive. *)
Example accepted_spellings_parse :
  forallb (fun tag =>
             bool_decide
               (is_Some (fst (parsePaint anyImage
                                (toObject (paintRecord "p" "n" tag [])) []))))
          ["LINEAR_GRADIENT"; "linear-gradient"; "RADIAL_GRADIENT";
           "radial-gradient"; "URL"; "url"]%string
  = true.
Proof. by vm_compute. Qed.

Example function_tag_case_sensitive :
  fst (parsePaint anyImage
         (toObject (paintRecord "p" "n" "Linear-Gradient" [])) []) = None
  /\ fst (parsePaint anyImage (toObject (paintRecord "p" "n" "Url" [])) [])
     = None.
Proof. by vm_compute. Qed.

(** A URL paint whose image does not resolve is dropped. *)
Example unresolved_image_is_dropped :
  parsePaint noImage (toObject (paintRecord "p" "n" "url" [])) [] = (None, []).
Proof. by vm_compute. Qed.

(** * Further properties of the parser *)

(** ** Colours *)

Lemma byte_range (x : Z) : 0 <= Z.land x 255 <= 255.
Proof.
  change 255 with (Z.ones 8) at 1 2. rewrite Z.land_ones by lia.
  pose proof (Z.mod_pos_bound x (2 ^ 8)). lia.
Qed.

(** X1. Whatever integer is decoded, each channel of the colour is a
    byte, 0..255. *)
Theorem rgbaToQColor_channels_are_bytes (color : Z) :
  let q := rgbaToQColor color in
  0 <= red q <= 255 /\ 0 <= green q <= 255
  /\ 0 <= blue q <= 255 /\ 0 <= alpha q <= 255.
Proof. cbn. auto using byte_range. Qed.

Lemma rgbaToQColor_of_sum (r g b a : Z) :
  0 <= r < 256 -> 0 <= g < 256 -> 0 <= b < 256 -> 0 <= a < 256 ->
  rgbaToQColor (r * 2 ^ 24 + g * 2 ^ 16 + b * 2 ^ 8 + a) = mkQColor r g b a.
Proof.
  intros Hr Hg Hb Ha. unfold rgbaToQColor.
  rewrite !byte_at by lia.
  change 255 with (Z.ones 8). rewrite Z.land_ones by lia.
  f_equal; Z.div_mod_to_equations; lia.
Qed.

(** X2. Decoding loses nothing of a 32-bit value: packing the decoded
    channels gives the value back, so different 32-bit values decode to
    different colours. *)
Theorem rgbaToQColor_repack (c1 c2 : Z) :
  0 <= c1 < 2 ^ 32 -> 0 <= c2 < 2 ^ 32 ->
  (let q := rgbaToQColor c1 in
   packed_rgba (red q) (green q) (blue q) (alpha q) = c1)
  /\ (rgbaToQColor c1 = rgbaToQColor c2 -> c1 = c2).
Proof.
  assert (R : forall c, 0 <= c < 2 ^ 32 ->
    let q := rgbaToQColor c in
    packed_rgba (red q) (green q) (blue q) (alpha q) = c).
  { intros c Hc q. subst q.
    unfold rgbaToQColor; cbn [red green blue alpha].
    pose proof (byte_range (Z.shiftr c 24)).
    pose proof (byte_range (Z.shiftr c 16)).
    pose proof (byte_range (Z.shiftr c 8)).
    pose proof (byte_range c).
    rewrite packed_rgba_sum by lia.
    rewrite !byte_at by lia.
    change 255 with (Z.ones 8). rewrite Z.land_ones by lia.
    Z.div_mod_to_equations. lia. }
  intros H1 H2. split; [by apply R|].
  intros E. rewrite <- (R c1 H1), <- (R c2 H2). cbn zeta. by rewrite E.
Qed.

Lemma rgbaToQColor_repack_witness :
  packed_rgba 18 52 86 120 = 305419896
  /\ (rgbaToQColor 305419896 = rgbaToQColor 305419896
      -> 305419896 = 305419896).
Proof.
  exact (rgbaToQColor_repack 305419896 305419896
           ltac:(lia) ltac:(lia)).
Defined.

(** X3. A colour whose red channel is 128 or more travels as a negative
    [int]; the conversion to [uint32_t] at the call restores the packed
    value, so the channels still come out right. *)
Theorem rgbaToQColor_signed_wire (r g b a : Z) :
  0 <= r < 256 -> 0 <= g < 256 -> 0 <= b < 256 -> 0 <= a < 256 ->
  let n := as_int32 (packed_rgba r g b a) in
  INT_MIN <= n <= INT_MAX
  /\ (128 <= r -> n < 0)
  /\ rgbaToQColor (to_uint32 n) = mkQColor r g b a.
Proof.
  intros Hr Hg Hb Ha n. subst n.
  rewrite packed_rgba_sum by lia.
  set (c := r * 2 ^ 24 + g * 2 ^ 16 + b * 2 ^ 8 + a).
  assert (Hc : 0 <= c < 2 ^ 32) by (unfold c; lia).
  unfold as_int32, INT_MIN, INT_MAX, to_uint32.
  destruct (Z.ltb_spec c (2 ^ 31)) as [Hlt|Hge].
  - split; [lia|]. split; [unfold c in *; lia|].
    rewrite Z.mod_small by lia. by apply rgbaToQColor_of_sum.
  - split; [lia|]. split; [lia|].
    replace ((c - 2 ^ 32) mod 2 ^ 32) with c
      by (apply (Z.mod_unique _ _ (-1)); lia).
    by apply rgbaToQColor_of_sum.
Qed.

Lemma rgbaToQColor_signed_wire_witness :
  as_int32 (packed_rgba 255 0 0 255) = -16776961
  /\ rgbaToQColor (to_uint32 (-16776961)) = mkQColor 255 0 0 255.
Proof.
  split; [reflexivity|].
  exact (proj2 (proj2 (rgbaToQColor_signed_wire 255 0 0 255
           ltac:(lia) ltac:(lia) ltac:(lia) ltac:(lia)))).
Defined.

Lemma value_absent (o : QJsonObject) (key : QString) :
  (forall v, (key, v) ∉ o) -> value o key = Undefined.
Proof.
  induction o as [|[k v] o IH]; intros H; cbn [value]; [done|].
  destruct (String.eqb_spec k key) as [->|Hne].
  - exfalso. apply (H v). by left.
  - apply IH. intros w Hw. apply (H w). by right.
Qed.

(** X4. [parsePaintColor] gives no colour for JSON null only. A value
    that is not a number, and a key that is missing from the record,
    give transparent black. *)
Theorem parsePaintColor_null_only (color : QJsonValue) :
  (parsePaintColor color = None <-> color = Null)
  /\ (color <> Null -> (forall d, color <> Number d) ->
      parsePaintColor color = Some (mkQColor 0 0 0 0))
  /\ (forall paintJson : QJsonObject,
        (forall v, ("color"%string, v) ∉ paintJson) ->
        parsePaintColor (value paintJson "color")
        = Some (mkQColor 0 0 0 0)).
Proof.
  split; [|split].
  - destruct color; by split.
  - intros H1 H2. destruct color; try done. by destruct (H2 d).
  - intros paintJson H. by rewrite value_absent.
Qed.

Lemma parsePaintColor_null_only_witness :
  parsePaintColor (String "red") = Some (mkQColor 0 0 0 0)
  /\ parsePaintColor
       (value (toObject (paintRecord "p" "n" "url" [])) "color")
     = Some (mkQColor 0 0 0 0).
Proof.
  split.
  - apply (proj1 (proj2 (parsePaintColor_null_only (String "red"))));
      [done|by intros d].
  - apply (proj2 (proj2 (parsePaintColor_null_only Null))).
    intros v Hv. vm_compute in Hv.
    repeat (apply elem_of_cons in Hv as [[=]|Hv]).
    by apply elem_of_nil in Hv.
Defined.

(** ** Gradient stops, in general *)

Lemma parsePaintStops_loop_acc stops lastStop parsedStops :
  parsePaintStops_loop stops lastStop parsedStops
  = parsedStops ++ parsePaintStops_loop stops lastStop [].
Proof.
  revert lastStop parsedStops.
  induction stops as [|stop rest IH]; intros lastStop parsedStops;
    cbn [parsePaintStops_loop].
  - by rewrite app_nil_r.
  - rewrite IH. rewrite (IH _ ([] ++ _)). by rewrite <- app_assoc.
Qed.

(** One turn of the loop: the stop appended and the new [lastStop]. *)
Lemma parsePaintStops_loop_cons stop rest lastStop :
  let position :=
    if Double.eqb (stop_position stop) lastStop
    then Double.add (stop_position stop) Double.lit_1e_7
    else stop_position stop in
  parsePaintStops_loop (stop :: rest) lastStop []
  = (position, stop_color stop) :: parsePaintStops_loop rest position [].
Proof.
  cbn [parsePaintStops_loop]. by rewrite parsePaintStops_loop_acc.
Qed.

Lemma parsePaintStops_loop_shape stops lastStop :
  let parsed := parsePaintStops_loop stops lastStop [] in
  map snd parsed = map stop_color stops
  /\ Forall2 (fun stop out =>
                fst out = stop_position stop
                \/ fst out = Double.add (stop_position stop) Double.lit_1e_7)
             stops parsed.
Proof.
  revert lastStop. induction stops as [|stop rest IH]; intros lastStop.
  - by split; [|constructor].
  - cbn zeta. rewrite parsePaintStops_loop_cons. cbn zeta.
    destruct (IH (if Double.eqb (stop_position stop) lastStop
                  then Double.add (stop_position stop) Double.lit_1e_7
                  else stop_position stop)) as [IH1 IH2].
    split; [cbn [map snd]; by rewrite IH1|].
    constructor; [|exact IH2].
    cbn [fst]. destruct (Double.eqb _ _); auto.
Qed.

(** X5. The stop parser yields one stop per record, in order; a stop's
    colour is always its own record's colour, and its position is the
    record's, or the record's plus 0.0000001. *)
Theorem parsePaintStops_shape (stops : QJsonArray) :
  length (parsePaintStops stops) = length stops
  /\ map snd (parsePaintStops stops) = map stop_color stops
  /\ Forall2 (fun stop out =>
                fst out = stop_position stop
                \/ fst out = Double.add (stop_position stop) Double.lit_1e_7)
             stops (parsePaintStops stops).
Proof.
  destruct (parsePaintStops_loop_shape stops Double.minus_one) as [H1 H2].
  split; [|by split].
  symmetry. by apply (Forall2_length _ _ _ H2).
Qed.

Lemma parsePaintStops_loop_identity stops lastStop :
  strictly_increasing (map stop_position stops) = true ->
  match stops with
  | stop :: _ => Double.eqb (stop_position stop) lastStop = false
  | [] => True
  end ->
  map fst (parsePaintStops_loop stops lastStop []) = map stop_position stops.
Proof.
  revert lastStop. induction stops as [|stop rest IH]; intros lastStop Hs Hh.
  - done.
  - rewrite parsePaintStops_loop_cons. cbn zeta. rewrite Hh.
    cbn [map fst]. f_equal. apply IH.
    + destruct rest; [done|]. cbn [map strictly_increasing] in Hs |- *.
      by apply andb_true_iff in Hs as [_ Hs].
    + destruct rest as [|next rest]; [done|].
      cbn [map strictly_increasing] in Hs.
      apply andb_true_iff in Hs as [Hs _].
      by apply ltb_not_eqb in Hs as [_ Hs].
Qed.

(** X6. On positions that already increase strictly, and do not start
    at the sentinel -1, the parser changes nothing: the parsed positions
    are the records' positions. *)
Theorem parsePaintStops_identity (stops : QJsonArray) :
  strictly_increasing (map stop_position stops) = true ->
  Double.eqb (hd Double.zero (map stop_position stops)) Double.minus_one
  = false ->
  map fst (parsePaintStops stops) = map stop_position stops.
Proof.
  intros Hs Hh. apply parsePaintStops_loop_identity; [done|].
  by destruct stops.
Qed.

Lemma parsePaintStops_identity_witness :
  map fst (parsePaintStops [stopRecord Double.zero 1;
                            stopRecord Double.half 2;
                            stopRecord Double.one 3])
  = [Double.zero; Double.half; Double.one].
Proof.
  exact (parsePaintStops_identity
           [stopRecord Double.zero 1; stopRecord Double.half 2;
            stopRecord Double.one 3] eq_refl eq_refl).
Defined.

Lemma adjacent_distinct_cons p q positions :
  adjacent_distinct (p :: q :: positions)
  = negb (Double.eqb p q) && adjacent_distinct (q :: positions).
Proof. reflexivity. Qed.

Lemma parsePaintStops_loop_adjacent stops lastStop :
  Forall (fun stop => in_unit_range (stop_position stop) = true) stops ->
  adjacent_distinct
    (lastStop :: map fst (parsePaintStops_loop stops lastStop [])) = true.
Proof.
  revert lastStop. induction stops as [|stop rest IH]; intros lastStop Hr.
  - done.
  - apply Forall_cons in Hr as [Hp Hr].
    unfold in_unit_range in Hp.
    apply andb_true_iff in Hp as [Hp H1].
    apply andb_true_iff in Hp as [Hv H0].
    rewrite parsePaintStops_loop_cons. cbn zeta.
    cbn [map fst]. rewrite adjacent_distinct_cons.
    rewrite (IH _ Hr), andb_true_r.
    apply negb_true_iff.
    destruct (Double.eqb (stop_position stop) lastStop) eqn:E.
    + pose proof (nudge_above _ Hv H0 H1) as L.
      apply eqb_true_cases in E as [<-|(s & t & Es & ->)].
      * by apply ltb_not_eqb in L as [L _].
      * rewrite Es. by destruct s, t.
    + by rewrite eqb_sym.
Qed.

(** X7. When every record's position is a binary64 number of the
    normalized range [0, 1], no parsed stop has the position of the stop
    before it, however many records repeat a position. *)
Theorem parsePaintStops_adjacent_distinct (stops : QJsonArray) :
  Forall (fun stop => in_unit_range (stop_position stop) = true) stops ->
  adjacent_distinct (map fst (parsePaintStops stops)) = true.
Proof.
  intros Hr.
  pose proof (parsePaintStops_loop_adjacent stops Double.minus_one Hr) as H.
  unfold parsePaintStops.
  destruct (map fst (parsePaintStops_loop stops Double.minus_one []));
    [done|].
  cbn [adjacent_distinct] in H. by apply andb_true_iff in H as [_ H].
Qed.

Lemma parsePaintStops_adjacent_distinct_witness :
  adjacent_distinct
    (map fst (parsePaintStops [stopRecord Double.half 1;
                               stopRecord Double.half 2;
                               stopRecord Double.half 3;
                               stopRecord Double.one 4;
                               stopRecord Double.one 5])) = true.
Proof.
  apply parsePaintStops_adjacent_distinct.
  repeat constructor.
Defined.

(** * Further properties of the registry *)

Section RegistryLaws.

Variable fromUrl : QString -> Z -> ImagePtr.

(** ** The variant dispatch *)

(** X8. A record parses exactly when its [function] is one of the four
    gradient spellings, or one of the two URL spellings and the image of
    its [image_url], asked for at scale 1, resolves. *)
Theorem parsePaint_succeeds_iff (paintJson : QJsonObject) (st : Store) :
  let function := toString (value paintJson "function") in
  is_Some (fst (parsePaint fromUrl paintJson st))
  <-> function ∈ ["LINEAR_GRADIENT"; "linear-gradient";
                  "RADIAL_GRADIENT"; "radial-gradient"]%string
      \/ (function ∈ ["URL"; "url"]%string
          /\ is_Some (fromUrl (toString (value paintJson "image_url")) 1)).
Proof.
  cbn zeta. unfold parsePaint, make_shared.
  set (f := toString (value paintJson "function")).
  rewrite !elem_of_cons, !elem_of_nil.
  destruct (String.eqb_spec f "LINEAR_GRADIENT");
    [cbn [orb fst]; split; [tauto|by eexists]|].
  destruct (String.eqb_spec f "linear-gradient");
    [cbn [orb fst]; split; [tauto|by eexists]|].
  destruct (String.eqb_spec f "RADIAL_GRADIENT");
    [cbn [orb fst]; split; [tauto|by eexists]|].
  destruct (String.eqb_spec f "radial-gradient");
    [cbn [orb fst]; split; [tauto|by eexists]|].
  cbn [orb].
  destruct (String.eqb f "URL" || String.eqb f "url") eqn:EU.
  - assert (HU : f = "URL"%string \/ f = "url"%string).
    { apply orb_true_iff in EU as [E|E]; apply String.eqb_eq in E; auto. }
    destruct (fromUrl _ 1) as [image|]; cbn [fst].
    + split; [intros _; right; split; [tauto|by eexists]|by eexists].
    + split; [by intros [? [=]]|].
      intros [H|[_ [? [=]]]]. tauto.
  - apply orb_false_iff in EU as [E1 E2].
    apply String.eqb_neq in E1, E2. cbn [fst].
    split; [by intros [? [=]]|]. tauto.
Qed.

(** X9. A parse allocates at most one paint: on success the pointer is
    the next free address, the store grows by that one paint, which
    carries the record's [id] and [name], and every paint allocated
    before stays where it was; on failure the store is unchanged. *)
Theorem parsePaint_allocation (paintJson : QJsonObject) (st : Store) :
  match parsePaint fromUrl paintJson st with
  | (Some l, st') =>
      l = length st
      /\ exists p, st' = st ++ [p]
                   /\ paint_id p = toString (value paintJson "id")
                   /\ paint_name p = toString (value paintJson "name")
                   /\ forall l0 q, st !! l0 = Some q -> st' !! l0 = Some q
  | (None, st') => st' = st
  end.
Proof.
  destruct (parsePaint fromUrl paintJson st) as [[l|] st'] eqn:E.
  - apply parsePaint_Some in E as (p & -> & -> & Hid & Hname).
    split; [done|]. exists p. repeat split; try done.
    intros l0 q H. by apply store_lookup_grow.
  - by apply parsePaint_None in E.
Qed.

(** Whether a record parses does not depend on the store. *)
Lemma parsePaint_parses v st :
  is_Some (fst (parsePaint fromUrl (toObject v) st)) <-> parses fromUrl v = true.
Proof.
  unfold parses. rewrite bool_decide_eq_true.
  unfold parsePaint, make_shared. by repeat case_match.
Qed.

(** ** [addPaint] *)

(** X10. Adding the same record twice is the same as adding it once. *)
Theorem addPaint_idempotent (paintJson : QJsonObject) (s : SeventvPaints) :
  addPaint fromUrl paintJson (addPaint fromUrl paintJson s)
  = addPaint fromUrl paintJson s.
Proof.
  destruct (knownPaints_ s !! toString (value paintJson "id")) as [l0|] eqn:K.
  { assert (A : addPaint fromUrl paintJson s = s)
      by (apply addPaint_known; rewrite K; by eexists).
    by rewrite !A. }
  destruct (parsePaint fromUrl paintJson (store s)) as [[l|] st'] eqn:E.
  - rewrite (addPaint_Some _ _ _ _ _ K E).
    apply addPaint_known. cbn. rewrite lookup_insert_eq. by eexists.
  - rewrite (addPaint_None _ _ _ _ E). by apply (addPaint_None _ _ _ _ E).
Qed.

(** X11. After [addPaint] the record's id is known exactly when it was
    known before or the record parses; no other id is affected. *)
Theorem addPaint_known_iff (paintJson : QJsonObject) (s : SeventvPaints) :
  let id := toString (value paintJson "id") in
  let s' := addPaint fromUrl paintJson s in
  (is_Some (knownPaints_ s' !! id)
   <-> is_Some (knownPaints_ s !! id)
       \/ is_Some (fst (parsePaint fromUrl paintJson (store s))))
  /\ (forall k, k <> id -> knownPaints_ s' !! k = knownPaints_ s !! k).
Proof.
  intros id s'. subst id s'.
  destruct (knownPaints_ s !! toString (value paintJson "id")) as [l0|] eqn:K.
  { rewrite addPaint_known by (rewrite K; by eexists). rewrite K.
    split; [|done]. split; [by left|by eexists]. }
  destruct (parsePaint fromUrl paintJson (store s)) as [[l|] st'] eqn:E.
  - rewrite (addPaint_Some _ _ _ _ _ K E). cbn.
    rewrite lookup_insert_eq.
    split; [split; [by right|by eexists]|].
    intros k Hk. by rewrite lookup_insert_ne.
  - rewrite (addPaint_None _ _ _ _ E), K. cbn.
    split; [|done]. split; [by intros [? [=]]|by intros [[? [=]]|[? [=]]]].
Qed.

(** ** [assignPaintToUser] and [clearPaintFromUser] together *)

(** X12. The last assignment of a known paint wins: an earlier
    assignment to the same user leaves no trace. Assigning twice is
    assigning once. *)
Theorem assignPaintToUser_last_wins (p1 p2 userName : QString)
    (s : SeventvPaints) :
  is_Some (knownPaints_ s !! p2) ->
  assignPaintToUser p2 userName (assignPaintToUser p1 userName s)
  = assignPaintToUser p2 userName s.
Proof.
  intros [l2 K2]. unfold assignPaintToUser.
  destruct (knownPaints_ s !! p1) as [l1|] eqn:K1; cbn; rewrite K2; [|done].
  unfold set_paintMap; cbn. by rewrite insert_insert_eq.
Qed.

(** X13. Assignments to different users commute. *)
Theorem assignPaintToUser_commute (p1 p2 u1 u2 : QString)
    (s : SeventvPaints) :
  u1 <> u2 ->
  assignPaintToUser p1 u1 (assignPaintToUser p2 u2 s)
  = assignPaintToUser p2 u2 (assignPaintToUser p1 u1 s).
Proof.
  intros Hne. unfold assignPaintToUser.
  destruct (knownPaints_ s !! p1) as [l1|] eqn:K1,
           (knownPaints_ s !! p2) as [l2|] eqn:K2;
    cbn; rewrite ?K1, ?K2; try done.
  unfold set_paintMap; cbn. by rewrite insert_insert_ne.
Qed.

(** X14. In a reachable registry, clearing a paint right after
    assigning it removes the user's entry, whatever the user held
    before; for a user who held nothing, the registry is back where it
    was. *)
Theorem assign_then_clear (ops : list Op) (paintID userName : QString) :
  let s := run fromUrl ops emptyRegistry in
  let s' :=
    clearPaintFromUser paintID userName
      (assignPaintToUser paintID userName s) in
  is_Some (knownPaints_ s !! paintID) ->
  getPaint userName s' = None
  /\ (forall u, u <> userName -> getPaint u s' = getPaint u s)
  /\ knownPaints_ s' = knownPaints_ s
  /\ store s' = store s
  /\ (getPaint userName s = None -> s' = s).
Proof.
  intros s s' [l K]. subst s'.
  destruct (proj1 (reachable_inv fromUrl ops) _ _ K) as (p & Hp & Hid).
  fold s in Hp.
  unfold assignPaintToUser, clearPaintFromUser, getPaint. rewrite K. cbn.
  rewrite lookup_insert_eq, Hp.
  apply String.eqb_eq in Hid. rewrite Hid. cbn.
  rewrite delete_insert_eq.
  split; [apply lookup_delete_eq|].
  split; [intros u Hu; by rewrite lookup_delete_ne|].
  split; [done|]. split; [done|].
  intros N. rewrite delete_id by done. by destruct s.
Qed.

(** X15. In a reachable registry, a clear that names another paint than
    the one just assigned does nothing: a late clear for an old paint
    cannot remove the new assignment. *)
Theorem stale_clear_ignored (ops : list Op) (p1 p2 userName : QString) :
  let s := run fromUrl ops emptyRegistry in
  is_Some (knownPaints_ s !! p2) -> p1 <> p2 ->
  clearPaintFromUser p1 userName (assignPaintToUser p2 userName s)
  = assignPaintToUser p2 userName s.
Proof.
  intros s [l K] Hne.
  destruct (proj1 (reachable_inv fromUrl ops) _ _ K) as (p & Hp & Hid).
  fold s in Hp.
  unfold assignPaintToUser, clearPaintFromUser. rewrite K. cbn.
  rewrite lookup_insert_eq, Hp.
  destruct (String.eqb (paint_id p) p1) eqn:E; [|done].
  apply String.eqb_eq in E. congruence.
Qed.

(** X16. Clearing twice is clearing once. *)
Theorem clearPaintFromUser_idempotent (paintID userName : QString)
    (s : SeventvPaints) :
  clearPaintFromUser paintID userName
    (clearPaintFromUser paintID userName s)
  = clearPaintFromUser paintID userName s.
Proof.
  destruct (paintMap_ s !! userName) as [l|] eqn:M.
  2:{ unfold clearPaintFromUser. by rewrite !M. }
  destruct (store s !! l) as [p|] eqn:S.
  2:{ unfold clearPaintFromUser. by rewrite !M, !S, !M, !S. }
  destruct (String.eqb (paint_id p) paintID) eqn:E.
  - unfold clearPaintFromUser. rewrite M, S, E.
    unfold set_paintMap. cbn [paintMap_].
    by rewrite lookup_delete_eq.
  - unfold clearPaintFromUser. by rewrite !M, !S, !E, !M, !S, !E.
Qed.

(** ** Histories *)

Lemma mergePaint_grows s v :
  (forall k, is_Some (knownPaints_ s !! k) ->
             is_Some (knownPaints_ (mergePaint fromUrl s v) !! k))
  /\ (forall l p, store s !! l = Some p ->
                  store (mergePaint fromUrl s v) !! l = Some p).
Proof.
  destruct (parsePaint fromUrl (toObject v) (store s)) as [[l|] st'] eqn:E.
  2:{ by rewrite (mergePaint_None _ _ _ _ E). }
  rewrite (mergePaint_Some _ _ _ _ _ E). cbn.
  apply parsePaint_Some in E as (p & -> & -> & _).
  split.
  - intros k Hk. rewrite lookup_insert. by case_decide.
  - intros l0 q H. by apply store_lookup_grow.
Qed.

Lemma bulkMerge_grows paints s :
  (forall k, is_Some (knownPaints_ s !! k) ->
             is_Some (knownPaints_ (bulkMerge fromUrl paints s) !! k))
  /\ (forall l p, store s !! l = Some p ->
                  store (bulkMerge fromUrl paints s) !! l = Some p).
Proof.
  unfold bulkMerge. revert s.
  induction paints as [|v paints IH]; intros s; cbn [fold_left]; [done|].
  destruct (mergePaint_grows s v) as [H1 H2].
  destruct (IH (mergePaint fromUrl s v)) as [I1 I2].
  split; eauto.
Qed.

Lemma step_grows s op :
  (forall k, is_Some (knownPaints_ s !! k) ->
             is_Some (knownPaints_ (step fromUrl s op) !! k))
  /\ (forall l p, store s !! l = Some p ->
                  store (step fromUrl s op) !! l = Some p).
Proof.
  destruct op as [paintJson|paintID userName|paintID userName|paints];
    cbn [step].
  - destruct (knownPaints_ s !! toString (value paintJson "id"))
      as [l0|] eqn:K.
    { rewrite addPaint_known by (rewrite K; by eexists). done. }
    destruct (parsePaint fromUrl paintJson (store s)) as [[l|] st'] eqn:E.
    2:{ by rewrite (addPaint_None _ _ _ _ E). }
    rewrite (addPaint_Some _ _ _ _ _ K E). cbn.
    apply parsePaint_Some in E as (p & -> & -> & _).
    split.
    + intros k Hk. rewrite lookup_insert. by case_decide.
    + intros l0 q H. by apply store_lookup_grow.
  - unfold assignPaintToUser. by case_match.
  - unfold clearPaintFromUser. by repeat case_match.
  - apply bulkMerge_grows.
Qed.

Lemma run_grows ops s :
  (forall k, is_Some (knownPaints_ s !! k) ->
             is_Some (knownPaints_ (run fromUrl ops s) !! k))
  /\ (forall l p, store s !! l = Some p ->
                  store (run fromUrl ops s) !! l = Some p).
Proof.
  unfold run. revert s.
  induction ops as [|op ops IH]; intros s; cbn [fold_left]; [done|].
  destruct (step_grows s op) as [H1 H2].
  destruct (IH (step fromUrl s op)) as [I1 I2].
  split; eauto.
Qed.

(** X17. No operation evicts a known paint: an id that is known stays
    known through every history. *)
Theorem known_ids_never_evicted (ops : list Op) (s : SeventvPaints)
    (k : QString) :
  is_Some (knownPaints_ s !! k) ->
  is_Some (knownPaints_ (run fromUrl ops s) !! k).
Proof. apply run_grows. Qed.

(** No operation hands out a pointer that exists already: a pointer of
    the store that a map holds after an operation was held before it. *)
Lemma mergePaint_held_back s v l p :
  store s !! l = Some p -> held (mergePaint fromUrl s v) l -> held s l.
Proof.
  intros Hl.
  destruct (parsePaint fromUrl (toObject v) (store s)) as [[l'|] st'] eqn:E.
  2:{ by rewrite (mergePaint_None _ _ _ _ E). }
  rewrite (mergePaint_Some _ _ _ _ _ E).
  apply parsePaint_Some in E as (q & -> & -> & _).
  apply lookup_lt_Some in Hl.
  intros [[k Hk]|[u Hu]]; cbn in *.
  - apply lookup_insert_Some in Hk as [[_ Hk]|[_ Hk]]; [lia|].
    left. by exists k.
  - apply assignUsers_lookup_cases in Hu as [[_ Hu]|[_ Hu]]; [lia|].
    right. by exists u.
Qed.

Lemma bulkMerge_held_back paints s l p :
  store s !! l = Some p -> held (bulkMerge fromUrl paints s) l -> held s l.
Proof.
  unfold bulkMerge. revert s.
  induction paints as [|v paints IH]; intros s Hl; cbn [fold_left]; [done|].
  intros H. apply (mergePaint_held_back s v l p Hl).
  apply IH; [|exact H]. by apply mergePaint_grows.
Qed.

Lemma step_held_back s op l p :
  store s !! l = Some p -> held (step fromUrl s op) l -> held s l.
Proof.
  intros Hl.
  destruct op as [paintJson|paintID userName|paintID userName|paints];
    cbn [step].
  - destruct (knownPaints_ s !! toString (value paintJson "id"))
      as [l0|] eqn:K.
    { rewrite addPaint_known by (rewrite K; by eexists). done. }
    destruct (parsePaint fromUrl paintJson (store s)) as [[l'|] st'] eqn:E.
    2:{ by rewrite (addPaint_None _ _ _ _ E). }
    rewrite (addPaint_Some _ _ _ _ _ K E).
    apply parsePaint_Some in E as (q & -> & -> & _).
    apply lookup_lt_Some in Hl.
    intros [[k Hk]|[u Hu]]; cbn in *.
    + apply lookup_insert_Some in Hk as [[_ Hk]|[_ Hk]]; [lia|].
      left. by exists k.
    + right. by exists u.
  - unfold assignPaintToUser.
    destruct (knownPaints_ s !! paintID) as [l0|] eqn:K; [|done].
    intros [[k Hk]|[u Hu]]; cbn in *.
    + left. by exists k.
    + apply lookup_insert_Some in Hu as [[_ <-]|[_ Hu]].
      * left. by exists paintID.
      * right. by exists u.
  - unfold clearPaintFromUser.
    destruct (paintMap_ s !! userName) as [it|]; [|done].
    destruct (store s !! it) as [paint|]; [|done].
    destruct (String.eqb (paint_id paint) paintID); [|done].
    intros [[k Hk]|[u Hu]]; cbn in *.
    + left. by exists k.
    + apply lookup_delete_Some in Hu as [_ Hu]. right. by exists u.
  - by apply (bulkMerge_held_back paints s l p).
Qed.

Lemma run_held_back ops s l p :
  store s !! l = Some p -> held (run fromUrl ops s) l -> held s l.
Proof.
  unfold run. revert s.
  induction ops as [|op ops IH]; intros s Hl; cbn [fold_left]; [done|].
  intros H. apply (step_held_back s op l p Hl).
  apply IH; [|exact H]. by apply step_grows.
Qed.

(** X18. A paint is immutable while it is shared: a pointer that a map
    of the registry holds after a history, and that denoted a paint
    before it, still denotes that paint, and a map held it before the
    history as well (no operation hands an existing pointer out anew). *)
Theorem allocated_paints_never_change (ops : list Op) (s : SeventvPaints)
    (l : PaintPtr) (p : Paint) :
  store s !! l = Some p ->
  held (run fromUrl ops s) l ->
  store (run fromUrl ops s) !! l = Some p /\ held s l.
Proof.
  intros Hl H. split.
  - by apply run_grows.
  - by apply (run_held_back ops s l p).
Qed.

(** X19. In every reachable registry, the paint filed under an id
    carries that id. *)
Theorem known_paint_carries_its_id (ops : list Op) (k : QString)
    (l : PaintPtr) :
  let s := run fromUrl ops emptyRegistry in
  knownPaints_ s !! k = Some l ->
  exists p, store s !! l = Some p /\ paint_id p = k.
Proof. intros s. apply (proj1 (reachable_inv fromUrl ops)). Qed.

(** ** Bulk merge *)

Lemma mergePaint_unlisted s v u :
  (parses fromUrl v = true -> u ∉ record_users v) ->
  getPaint u (mergePaint fromUrl s v) = getPaint u s.
Proof.
  intros H.
  destruct (parsePaint fromUrl (toObject v) (store s)) as [[l|] st'] eqn:E.
  2:{ by rewrite (mergePaint_None _ _ _ _ E). }
  rewrite (mergePaint_Some _ _ _ _ _ E). unfold getPaint; cbn.
  apply assignUsers_unlisted, H, (parsePaint_parses v (store s)).
  rewrite E. by eexists.
Qed.

(** X20. A bulk merge leaves alone every user that no parsing record of
    the batch lists. *)
Theorem bulkMerge_unlisted_user (paints : QJsonArray) (s : SeventvPaints)
    (u : QString) :
  (forall v, v ∈ paints -> parses fromUrl v = true -> u ∉ record_users v) ->
  getPaint u (bulkMerge fromUrl paints s) = getPaint u s.
Proof.
  unfold bulkMerge. revert s.
  induction paints as [|v paints IH]; intros s H; cbn [fold_left]; [done|].
  rewrite IH by (intros w Hw; apply H; by right).
  apply mergePaint_unlisted, H. by left.
Qed.

(** X21. Within a batch the last parsing record that lists a user
    decides the user's paint. *)
Theorem bulkMerge_last_listing_wins (pre post : QJsonArray)
    (v : QJsonValue) (s : SeventvPaints) (u : QString) (l : PaintPtr)
    (st' : Store) :
  parsePaint fromUrl (toObject v) (store (bulkMerge fromUrl pre s))
  = (Some l, st') ->
  u ∈ record_users v ->
  (forall w, w ∈ post -> parses fromUrl w = true -> u ∉ record_users w) ->
  getPaint u (bulkMerge fromUrl (pre ++ v :: post) s) = Some l.
Proof.
  intros E Hu Hpost.
  assert (B : bulkMerge fromUrl (pre ++ v :: post) s
              = bulkMerge fromUrl post
                  (mergePaint fromUrl (bulkMerge fromUrl pre s) v)).
  { unfold bulkMerge. by rewrite fold_left_app. }
  rewrite B, bulkMerge_unlisted_user by done.
  rewrite (mergePaint_Some _ _ _ _ _ E). unfold getPaint; cbn.
  by apply assignUsers_listed.
Qed.

(** X22. Bulk merge refreshes where [addPaint] keeps: for an id that a
    reachable registry already knows, merging a parsing record files a
    new instance under the id, while [addPaint] of the same record keeps
    the old one. *)
Theorem bulk_refreshes_addPaint_keeps (ops : list Op) (v : QJsonValue)
    (l0 l : PaintPtr) (st' : Store) :
  let s := run fromUrl ops emptyRegistry in
  let id := toString (value (toObject v) "id") in
  knownPaints_ s !! id = Some l0 ->
  parsePaint fromUrl (toObject v) (store s) = (Some l, st') ->
  knownPaints_ (mergePaint fromUrl s v) !! id = Some l
  /\ l <> l0
  /\ knownPaints_ (addPaint fromUrl (toObject v) s) !! id = Some l0.
Proof.
  intros s id K E.
  destruct (proj1 (reachable_inv fromUrl ops) _ _ K) as (q & Hq & _).
  fold s in Hq.
  rewrite (mergePaint_Some _ _ _ _ _ E). cbn.
  rewrite addPaint_known by (fold id; rewrite K; by eexists).
  apply parsePaint_Some in E as (p & -> & -> & _).
  split; [apply lookup_insert_eq|].
  split; [apply lookup_lt_Some in Hq; lia|].
  done.
Qed.

(** X23. A response body without a [paints] array, be the key missing
    or its value of another type, leaves the registry as it was. *)
Theorem onSuccess_without_paints (root : QJsonObject) (s : SeventvPaints) :
  ((forall a, value root "paints" <> Array a) ->
   loadSeventvPaints_onSuccess fromUrl root s = s)
  /\ ((forall v, ("paints"%string, v) ∉ root) ->
      loadSeventvPaints_onSuccess fromUrl root s = s).
Proof.
  assert (A : (forall a, value root "paints" <> Array a) ->
              loadSeventvPaints_onSuccess fromUrl root s = s).
  { intros H. unfold loadSeventvPaints_onSuccess.
    destruct (value root "paints") as [| | | |a| |]; try done.
    by destruct (H a). }
  split; [exact A|].
  intros H. apply A. by rewrite value_absent.
Qed.

(** X24. A bulk merge allocates exactly one paint per parsing record.
    Records that do not parse allocate nothing. *)
Theorem bulkMerge_allocations (paints : QJsonArray) (s : SeventvPaints) :
  length (store (bulkMerge fromUrl paints s))
  = (length (store s) + length (List.filter (parses fromUrl) paints))%nat.
Proof.
  unfold bulkMerge. revert s.
  induction paints as [|v paints IH]; intros s;
    cbn [fold_left List.filter]; [cbn [length]; lia|].
  rewrite IH.
  destruct (parsePaint fromUrl (toObject v) (store s)) as [[l|] st'] eqn:E.
  - assert (P : parses fromUrl v = true)
      by (apply (parsePaint_parses v (store s)); rewrite E; by eexists).
    rewrite P, (mergePaint_Some _ _ _ _ _ E). cbn.
    apply parsePaint_Some in E as (p & -> & -> & _).
    rewrite length_app. cbn [length]. lia.
  - assert (P : parses fromUrl v = false).
    { apply not_true_is_false. intros P.
      apply (parsePaint_parses v (store s)) in P.
      rewrite E in P. by destruct P as [? [=]]. }
    by rewrite P, (mergePaint_None _ _ _ _ E).
Qed.

End RegistryLaws.

(** ** The catalog request *)

Lemma request_after_from (n : nat) (st : LoadStatics) :
  request_after n st
  = mkQUrl (urlBase (static_url st))
      (static_urlQuery st
       ++ replicate (S n) ("user_identifier", "login")%string).
Proof.
  revert st. induction n as [|n IH]; intros st; cbn [request_after].
  - reflexivity.
  - rewrite IH. cbn [loadSeventvPaints_request snd static_url
                     static_urlQuery urlBase].
    by rewrite <- app_assoc.
Qed.

(** X25. The first call of [loadSeventvPaints] requests the cosmetics
    endpoint with the one query item [user_identifier=login]; as the
    query is a function-local static, every further call sends one more
    copy of the item. *)
Theorem loadSeventvPaints_request_query (n : nat) :
  request_after n initialStatics
  = mkQUrl "https://7tv.io/v2/cosmetics"
      (replicate (S n) ("user_identifier", "login")%string).
Proof. by rewrite request_after_from. Qed.

(** ** Instances of the registry properties *)

Lemma addPaint_known_iff_witness :
  let r := toObject (paintRecord "p1" "n" "url" []) in
  is_Some (knownPaints_ (addPaint anyImage r emptyRegistry) !! "p1"%string)
  /\ knownPaints_ (addPaint anyImage r emptyRegistry) !! "p2"%string
     = knownPaints_ emptyRegistry !! "p2"%string.
Proof.
  intros r.
  destruct (addPaint_known_iff anyImage r emptyRegistry) as [H1 H2].
  split.
  - apply H1. right. eexists. by vm_compute.
  - by apply H2.
Defined.

Lemma assignPaintToUser_last_wins_witness :
  let s :=
    run anyImage
      [AddKnownPaint (toObject (paintRecord "p1" "n" "url" []));
       AddKnownPaint (toObject (paintRecord "p2" "m" "url" []))]
      emptyRegistry in
  assignPaintToUser "p2" "alice" (assignPaintToUser "p1" "alice" s)
  = assignPaintToUser "p2" "alice" s.
Proof.
  intros s. apply assignPaintToUser_last_wins.
  eexists. by vm_compute.
Defined.

Lemma assignPaintToUser_commute_witness :
  let s :=
    run anyImage
      [AddKnownPaint (toObject (paintRecord "p1" "n" "url" []))]
      emptyRegistry in
  assignPaintToUser "p1" "alice" (assignPaintToUser "p1" "bob" s)
  = assignPaintToUser "p1" "bob" (assignPaintToUser "p1" "alice" s).
Proof. intros s. by apply assignPaintToUser_commute. Defined.

Lemma assign_then_clear_witness :
  let s :=
    run anyImage
      [AddKnownPaint (toObject (paintRecord "p1" "n" "url" []))]
      emptyRegistry in
  clearPaintFromUser "p1" "alice" (assignPaintToUser "p1" "alice" s) = s.
Proof.
  intros s.
  destruct (assign_then_clear anyImage
              [AddKnownPaint (toObject (paintRecord "p1" "n" "url" []))]
              "p1" "alice") as (_ & _ & _ & _ & H).
  - eexists. by vm_compute.
  - apply H. by vm_compute.
Defined.

Lemma stale_clear_ignored_witness :
  let s :=
    run anyImage
      [AddKnownPaint (toObject (paintRecord "p1" "n" "url" []));
       AddKnownPaint (toObject (paintRecord "p2" "m" "url" []))]
      emptyRegistry in
  clearPaintFromUser "p1" "alice" (assignPaintToUser "p2" "alice" s)
  = assignPaintToUser "p2" "alice" s.
Proof.
  intros s.
  apply (stale_clear_ignored anyImage
           [AddKnownPaint (toObject (paintRecord "p1" "n" "url" []));
            AddKnownPaint (toObject (paintRecord "p2" "m" "url" []))]
           "p1" "p2" "alice"); [|done].
  eexists. by vm_compute.
Defined.

(** A refreshing catalog followed by a clear. *)
Lemma known_ids_never_evicted_witness :
  let s :=
    run anyImage
      [AddKnownPaint (toObject (paintRecord "p1" "n" "url" []))]
      emptyRegistry in
  is_Some (knownPaints_ (run anyImage (refreshingOps ++ [Clear "p1" "alice"]) s)
             !! "p1"%string).
Proof.
  intros s. apply known_ids_never_evicted.
  eexists. by vm_compute.
Defined.

Lemma allocated_paints_never_change_witness :
  let s :=
    run anyImage
      [AddKnownPaint (toObject (paintRecord "p1" "n" "url" []));
       Assign "p1" "alice"]
      emptyRegistry in
  let ops := [BulkMerge [paintRecord "p1" "second" "url" []]] in
  paintMap_ (run anyImage ops s) !! "alice"%string = Some 0%nat
  /\ knownPaints_ (run anyImage ops s) !! "p1"%string = Some 1%nat
  /\ exists p, store s !! 0%nat = Some p
               /\ store (run anyImage ops s) !! 0%nat = Some p
               /\ held s 0%nat.
Proof.
  intros s ops.
  split; [by vm_compute|]. split; [by vm_compute|].
  eexists. split; [by vm_compute|].
  apply (allocated_paints_never_change anyImage ops s 0%nat).
  - by vm_compute.
  - right. exists "alice"%string. by vm_compute.
Defined.

Lemma known_paint_carries_its_id_witness :
  exists p, store (run anyImage plainOps emptyRegistry) !! 1%nat = Some p
            /\ paint_id p = "p2"%string.
Proof.
  apply (known_paint_carries_its_id anyImage plainOps "p2" 1%nat).
  by vm_compute.
Defined.

Lemma bulkMerge_unlisted_user_witness :
  let s := run anyImage plainOps emptyRegistry in
  getPaint "alice"
    (bulkMerge anyImage [paintRecord "p3" "n" "url" ["bob"]] s)
  = getPaint "alice" s.
Proof.
  intros s. apply bulkMerge_unlisted_user.
  intros v Hv _. apply list_elem_of_singleton in Hv as ->.
  intros H. vm_compute in H.
  apply list_elem_of_singleton in H. discriminate H.
Defined.

Lemma bulkMerge_last_listing_wins_witness :
  getPaint "alice"
    (bulkMerge anyImage
       ([paintRecord "p1" "n" "url" ["alice"]]
        ++ paintRecord "p2" "m" "url" ["alice"; "bob"]
        :: [paintRecord "p3" "k" "url" ["bob"]]) emptyRegistry)
  = Some 1%nat.
Proof.
  refine (bulkMerge_last_listing_wins anyImage
            [paintRecord "p1" "n" "url" ["alice"]]
            [paintRecord "p3" "k" "url" ["bob"]]
            (paintRecord "p2" "m" "url" ["alice"; "bob"])
            emptyRegistry "alice" 1%nat
            (snd (parsePaint anyImage
                    (toObject (paintRecord "p2" "m" "url" ["alice"; "bob"]))
                    (store (bulkMerge anyImage
                              [paintRecord "p1" "n" "url" ["alice"]]
                              emptyRegistry)))) _ _ _).
  - by vm_compute.
  - vm_compute. by left.
  - intros w Hw _. apply list_elem_of_singleton in Hw as ->.
    intros H. vm_compute in H.
    apply list_elem_of_singleton in H. discriminate H.
Defined.

Lemma bulk_refreshes_addPaint_keeps_witness :
  let ops := [AddKnownPaint (toObject (paintRecord "p1" "n" "url" []))] in
  let s := run anyImage ops emptyRegistry in
  let v := paintRecord "p1" "new" "url" [] in
  knownPaints_ (mergePaint anyImage s v) !! "p1"%string = Some 1%nat
  /\ knownPaints_ (addPaint anyImage (toObject v) s) !! "p1"%string
     = Some 0%nat.
Proof.
  intros ops s v.
  destruct (bulk_refreshes_addPaint_keeps anyImage ops v 0%nat 1%nat
              (snd (parsePaint anyImage (toObject v) (store s))))
    as (H1 & _ & H2); [by vm_compute|by vm_compute|].
  split; [exact H1|exact H2].
Defined.

Lemma onSuccess_without_paints_witness :
  let s := run anyImage plainOps emptyRegistry in
  loadSeventvPaints_onSuccess anyImage [("paints"%string, String "none")] s
  = s
  /\ loadSeventvPaints_onSuccess anyImage [("error"%string, String "x")] s
     = s.
Proof.
  intros s. split.
  - by apply (proj1 (onSuccess_without_paints anyImage
                       [("paints"%string, String "none")] s)).
  - apply (proj2 (onSuccess_without_paints anyImage
                    [("error"%string, String "x")] s)).
    intros v H. apply list_elem_of_singleton in H. discriminate H.
Defined.

(** X26. A gradient record is parsed without the image resolver: with
    one of the four gradient spellings the result is the same whatever
    the resolver would answer. *)
Theorem parsePaint_gradient_ignores_resolver
    (fromUrl1 fromUrl2 : QString -> Z -> ImagePtr)
    (paintJson : QJsonObject) (st : Store) :
  toString (value paintJson "function")
    ∈ ["LINEAR_GRADIENT"; "linear-gradient";
       "RADIAL_GRADIENT"; "radial-gradient"]%string ->
  parsePaint fromUrl1 paintJson st = parsePaint fromUrl2 paintJson st
  /\ is_Some (fst (parsePaint fromUrl1 paintJson st)).
Proof.
  intros H. unfold parsePaint.
  repeat (apply elem_of_cons in H as [->|H]); try (by apply elem_of_nil in H);
    (split; [reflexivity|by eexists]).
Qed.

Lemma parsePaint_gradient_ignores_resolver_witness :
  let r := toObject (paintRecord "p1" "n" "radial-gradient" []) in
  parsePaint noImage r [] = parsePaint anyImage r []
  /\ is_Some (fst (parsePaint noImage r [])).
Proof.
  intros r. apply parsePaint_gradient_ignores_resolver.
  vm_compute. do 3 right. by left.
Defined.
